(** * Hephaestus: equation-system assembly and implicit-solve engine

    A shallow embedding of the parts of the Hephaestus sources that the
    specification talks about: the coil sources ([ClosedCoilSolver],
    [OpenCoilSolver]), the time-domain operators ([AVSolver], [HCurlSolver],
    [HCurlOperator]) and the kernels, followed by the properties checked
    against them.

    Conventions.
    - A C++ [double] is a binary64 float ([PrimFloat.float]); arithmetic is
      IEEE 754 round-to-nearest, as the kernel computes it.
    - A C++ [int] is a [Z]; where the source adds ints the 32-bit wrap-around
      is written out ([int_wrap]).
    - [mfem::Vector], [mfem::ParGridFunction] and [mfem::ParLinearForm] are
      lists of doubles, updated element by element as mfem does.
    - [mfem::NamedFieldsMap<T>] is a [gmap string T]; [Get] of an absent name
      is [None] (the null pointer the source tests for).
    - A method that can call [mfem::mfem_error] or print runs in the monad
      [M], which threads a trace of events and stops at the first abort. *)

From Stdlib Require Import ZArith Lia List String Floats.
From stdpp Require Import gmap strings list.

Set Warnings "-inexact-float".

Local Open Scope Z_scope.

(* ===================================================================== *)
(** ** Doubles                                                             *)
(* ===================================================================== *)

Module Double.

Definition double := float.

(** [fabs(x)]. *)
Definition fabs (x : double) : double := PrimFloat.abs x.

(** [x == 0.0] in C++: true for both signed zeros, false for NaN. *)
Definition is_zero (x : double) : bool := PrimFloat.eqb x 0%float.

(** [std::isnan]. *)
Definition isnan (x : double) : bool := PrimFloat.is_nan x.

(** [std::isfinite]: neither an infinity nor NaN. *)
Definition isfinite (x : double) : bool :=
  PrimFloat.ltb (PrimFloat.abs x) PrimFloat.infinity.

End Double.

(* ===================================================================== *)
(** ** The parts of mfem the sources use                                   *)
(* ===================================================================== *)

Module Mfem.
Import Double.

(** *** [mfem::Array<int>] *)

Definition int_wrap (z : Z) : Z := (z + 2 ^ 31) mod 2 ^ 32 - 2 ^ 31.

(** [Array<int>::PartialSum]: the running sum written back in place. *)
Fixpoint PartialSum_from (sum : Z) (data : list Z) : list Z :=
  match data with
  | [] => []
  | d :: rest =>
      let sum' := int_wrap (sum + d) in
      sum' :: PartialSum_from sum' rest
  end.

Definition PartialSum (data : list Z) : list Z := PartialSum_from 0 data.

(** *** [mfem::Vector] *)

Abbreviation Vector := (list double).

(** [v = c]. *)
Definition Vector_assign (c : double) (v : Vector) : Vector :=
  map (fun _ => c) v.

(** [v *= c]. *)
Definition Vector_scale (c : double) (v : Vector) : Vector :=
  map (fun x => PrimFloat.mul x c) v.

(** [v /= c] is mfem's operator, not the sources'.  mfem has computed it
    entry by entry as [x / c] and as [x * m] with [m = 1.0 / c] computed
    once; the embedding covers both. *)
Inductive VectorDivision := by_quotient | by_reciprocal.

Definition divide (how : VectorDivision) (x c : double) : double :=
  match how with
  | by_quotient => PrimFloat.div x c
  | by_reciprocal => PrimFloat.mul x (PrimFloat.div 1%float c)
  end.

Definition Vector_div (how : VectorDivision) (c : double) (v : Vector) : Vector :=
  map (fun x => divide how x c) v.

(** [y[i] += a * x[i]] over the common length; entries of [y] beyond the
    length of [x] have no partner and keep their value. *)
Fixpoint add_scaled (a : double) (x y : Vector) : Vector :=
  match y, x with
  | yi :: y', xi :: x' =>
      PrimFloat.add yi (PrimFloat.mul a xi) :: add_scaled a x' y'
  | _, _ => y
  end.

(** [y.Add(a, x)]: nothing is done when [a == 0.0]. *)
Definition Vector_Add (a : double) (x y : Vector) : Vector :=
  if PrimFloat.eqb a 0%float then y else add_scaled a x y.

(** *** Finite element spaces, meshes and grid functions *)

(** What the sources read from a [ParMesh]: one attribute per element and
    one per boundary element. *)
Record ParMesh := {
  elem_attributes : list Z;
  bdr_elem_attributes : list Z
}.

(** What the sources read from a [ParFiniteElementSpace]: its mesh, the
    local vector size [GetVSize] (all local degrees of freedom, shared ones
    included) and the true size [GetTrueVSize] (those this rank owns). *)
Record ParFiniteElementSpace := {
  fes_name : string;
  GetParMesh : ParMesh;
  GetVSize : Z;
  GetTrueVSize : Z
}.

Definition GetNE (mesh : ParMesh) : Z := Z.of_nat (length (elem_attributes mesh)).

(** [mesh->GetAttribute(el)]; [None] is an access out of the element array. *)
Definition GetAttribute (mesh : ParMesh) (el : Z) : option Z :=
  if el <? 0 then None else elem_attributes mesh !! Z.to_nat el.

(** [attributes.Max()] of an [Array<int>]; mfem asserts that the array is
    not empty, the embedding gives the smallest int there. *)
Definition Array_Max (a : list Z) : Z := foldr Z.max (- 2 ^ 31) a.

(** A [ParGridFunction]: its space and its vector of degrees of freedom. *)
Record ParGridFunction := {
  ParFESpace : ParFiniteElementSpace;
  gf_data : Vector
}.

Definition gf_with_data (gf : ParGridFunction) (v : Vector) : ParGridFunction :=
  {| ParFESpace := ParFESpace gf; gf_data := v |}.

(** A [ParSubMesh] as the sources use it: [Transfer(src, dst)] copies a
    child field into the parent field and returns the parent's new values;
    which parent entries it writes is the submesh's business. *)
Record ParSubMesh := {
  submesh_domains : list Z;
  Transfer : Vector -> Vector -> Vector
}.

(** *** Coefficients *)

(** [prodFunc] and [fracFunc], the two functions the sources hand to
    [TransformedCoefficient]; they are named here and never evaluated. *)
Inductive TransformFunc := prodFunc | fracFunc.

(** Coefficients as the operators build them.  [DtCoefRef] is [&dtCoef], a
    pointer to the operator's own constant, whose value is whatever
    [dtCoef.constant] holds when the coefficient is evaluated.
    [FunctionCoefficient f] is a coefficient of time (evaluated at a fixed
    point); [MaterialCoefficient n] is the entry [n] of the property map. *)
Inductive Coefficient :=
| ConstantCoefficient (constant : double)
| FunctionCoefficient (f : double -> double)
| MaterialCoefficient (name : string)
| DtCoefRef
| TransformedCoefficient (Q1 Q2 : Coefficient) (F : TransformFunc).

(** A coefficient with its pointers followed and its time fixed, as an
    assembly sees it. *)
Inductive CoefficientValue :=
| ConstantValue (constant : double)
| FunctionValue (f : double -> double) (time : double)
| MaterialValue (name : string) (time : double)
| TransformedValue (Q1 Q2 : CoefficientValue) (F : TransformFunc).

Fixpoint evaluate (dtCoef_constant time : double) (Q : Coefficient) : CoefficientValue :=
  match Q with
  | ConstantCoefficient c => ConstantValue c
  | FunctionCoefficient f => FunctionValue f time
  | MaterialCoefficient n => MaterialValue n time
  | DtCoefRef => ConstantValue dtCoef_constant
  | TransformedCoefficient Q1 Q2 F =>
      TransformedValue (evaluate dtCoef_constant time Q1)
                       (evaluate dtCoef_constant time Q2) F
  end.

(** [Q->Eval(Tr, ip)] for a scalar coefficient of time only, the kind the
    coil sources take for the total current; other coefficients have no
    value at a point in this embedding. *)
Definition Eval (time : double) (Q : Coefficient) : option double :=
  match Q with
  | ConstantCoefficient c => Some c
  | FunctionCoefficient f => Some (f time)
  | _ => None
  end.

(** *** Forms *)

Inductive Integrator :=
| DiffusionIntegrator (Q : Coefficient)
| VectorFEMassIntegrator (Q : Coefficient)
| CurlCurlIntegrator (Q : Coefficient)
| MixedVectorGradientIntegrator (Q : Coefficient).

Inductive IntegratorValue :=
| DiffusionTerm (Q : CoefficientValue)
| VectorFEMassTerm (Q : CoefficientValue)
| CurlCurlTerm (Q : CoefficientValue)
| MixedVectorGradientTerm (Q : CoefficientValue).

Definition assemble_integrator (dtCoef_constant time : double) (i : Integrator)
  : IntegratorValue :=
  match i with
  | DiffusionIntegrator Q => DiffusionTerm (evaluate dtCoef_constant time Q)
  | VectorFEMassIntegrator Q => VectorFEMassTerm (evaluate dtCoef_constant time Q)
  | CurlCurlIntegrator Q => CurlCurlTerm (evaluate dtCoef_constant time Q)
  | MixedVectorGradientIntegrator Q =>
      MixedVectorGradientTerm (evaluate dtCoef_constant time Q)
  end.

(** A bilinear form: the integrators added to it, and the terms of its
    matrix as the last [Assemble] left them ([None] before any).  The matrix
    is the sum of one term per integrator, each with the coefficient values
    of the moment of assembly. *)
Record ParBilinearForm := {
  bf_space : ParFiniteElementSpace;
  bf_integrators : list Integrator;
  bf_matrix : option (list IntegratorValue)
}.

Definition new_ParBilinearForm (fes : ParFiniteElementSpace) : ParBilinearForm :=
  {| bf_space := fes; bf_integrators := []; bf_matrix := None |}.

Definition AddDomainIntegrator (i : Integrator) (a : ParBilinearForm) : ParBilinearForm :=
  {| bf_space := bf_space a;
     bf_integrators := bf_integrators a ++ [i];
     bf_matrix := bf_matrix a |}.

Definition Assemble (dtCoef_constant time : double) (a : ParBilinearForm) : ParBilinearForm :=
  {| bf_space := bf_space a;
     bf_integrators := bf_integrators a;
     bf_matrix := Some (map (assemble_integrator dtCoef_constant time)
                            (bf_integrators a)) |}.

(** *** Hypre solvers *)

(** A heap object is known by the serial number of its allocation. *)
Definition obj_id := nat.

Record HypreSolver := {
  solver_id : obj_id;
  solver_class : string;
  solver_tol : double;
  solver_max_iter : Z;
  solver_print_level : Z;
  solver_preconditioner : option obj_id
}.

(** What an iterative solve leaves behind: the iterate in [X], and, inside
    the solver object, whether it converged, the number of iterations and
    the final residual norm. *)
Record MultResult := {
  mr_x : Vector;
  mr_converged : bool;
  mr_num_iterations : Z;
  mr_final_res_norm : double
}.

(** The matrix [FormLinearSystem] leaves in a [HypreParMatrix]: the terms
    of the assembled form with the essential degrees of freedom eliminated. *)
Record HypreParMatrix := {
  mat_terms : list IntegratorValue;
  mat_eliminated : list nat
}.

Definition eliminated_matrix (a : ParBilinearForm) (ess_tdof_list : list nat)
  : HypreParMatrix :=
  {| mat_terms := default [] (bf_matrix a); mat_eliminated := ess_tdof_list |}.

(** *** Aliased blocks of a vector *)

(** [gf.MakeRef(fes, X, offset)] makes [gf] the window of [X] that starts at
    [offset] and has the size of the space: reading the grid function reads
    the window, writing it writes the window. *)
Definition window (offset size : Z) (X : Vector) : Vector :=
  take (Z.to_nat size) (drop (Z.to_nat offset) X).

Definition write_window (offset : Z) (gf X : Vector) : Vector :=
  take (Z.to_nat offset) X ++ gf ++ drop (Z.to_nat offset + length gf) X.

(** *** Named registries *)

(** [hephaestus::GridFunctions], [FESpaces] and the scalar coefficients of
    [Coefficients]: [NamedFieldsMap]s, looked up by name.  The grid-function
    map is also the store the solvers' grid-function pointers point into: a
    pointer obtained by [Get(name)] is the name. *)
Abbreviation GridFunctions := (gmap string ParGridFunction).
Abbreviation FESpaces := (gmap string ParFiniteElementSpace).

Record Coefficients := {
  scalars : gmap string Coefficient
}.

(** A Dirichlet condition: variable, boundary attributes, value. *)
Record FunctionDirichletBC := {
  bc_variable : string;
  bc_attributes : list Z;
  bc_value : Coefficient
}.
Abbreviation BCMap := (gmap string FunctionDirichletBC).

(** The line feed that ends the messages of [mfem_error]. *)
Definition LF : string := String (Ascii.ascii_of_nat 10) EmptyString.

End Mfem.

(* ===================================================================== *)
(** ** Aborts, console output and calls                                    *)
(* ===================================================================== *)

Module Run.

(** What a run leaves to an observer, in order. *)
Inductive Event :=
| Print (text : string)          (* [std::cout << text] *)
| Call (function : string)       (* a call into mesh, assembly or solve work *)
| New (class : string) (id : nat)  (* a heap allocation *).

Inductive Outcome (A : Type) :=
| Return (a : A)
| Abort (message : string).      (* [mfem::mfem_error(message)] *)
Arguments Return {A} a.
Arguments Abort {A} message.

(** A computation extends the trace and either returns or aborts. *)
Definition M (A : Type) : Type := list Event -> Outcome A * list Event.

Definition ret {A} (a : A) : M A := fun tr => (Return a, tr).

Definition bind {A B} (m : M A) (k : A -> M B) : M B :=
  fun tr =>
    match m tr with
    | (Return a, tr') => k a tr'
    | (Abort msg, tr') => (Abort msg, tr')
    end.

Definition emit (e : Event) : M unit := fun tr => (Return tt, tr ++ [e]).
Definition cout (text : string) : M unit := emit (Print text).
Definition call (function : string) : M unit := emit (Call function).
Definition mfem_error {A} (message : string) : M A := fun tr => (Abort message, tr).

(** Run from an empty trace. *)
Definition run {A} (m : M A) : Outcome A * list Event := m [].

Definition aborted {A} (o : Outcome A) : bool :=
  match o with Abort _ => true | Return _ => false end.

(** The events that stand for work on meshes, forms or solvers. *)
Definition is_work (e : Event) : bool :=
  match e with Print _ => false | Call _ | New _ _ => true end.

End Run.

#[global] Instance M_ret : MRet Run.M := @Run.ret.
#[global] Instance M_bind : MBind Run.M := fun A B k m => Run.bind m k.


(* ===================================================================== *)
(** ** open_coil.cpp                                                       *)
(* ===================================================================== *)

Module OpenCoilSolver.
Import Double Mfem Run.

(** The constructor's arguments and the reference face ([ref_face_] starts
    as the first electrode; [setRefFace] replaces it). *)
Record Config := {
  J_gf_name_ : string;
  V_gf_name_ : string;
  I_coef_name_ : string;
  coil_domains_ : list Z;
  order_ : Z;
  elec_attrs_ : Z * Z;
  ref_face_ : Z
}.

Definition setRefFace (face : Z) (c : Config) : Config :=
  {| J_gf_name_ := J_gf_name_ c; V_gf_name_ := V_gf_name_ c;
     I_coef_name_ := I_coef_name_ c; coil_domains_ := coil_domains_ c;
     order_ := order_ c; elec_attrs_ := elec_attrs_ c; ref_face_ := face |}.

(** The mesh and solve work [Init] hands to mfem and to other sources: the
    way mfem divides a vector, building the child mesh, sizing the child
    spaces, the potential solve of [ScalarPotentialSource] followed by
    [cleanDivergence], and the flux quadrature of [calcFlux]. *)
Record Backend := {
  vector_division : VectorDivision;
  CreateFromDomain : ParMesh -> list Z -> ParSubMesh;
  child_H1_size : ParSubMesh -> Z -> nat;
  child_HCurl_size : ParSubMesh -> Z -> nat;
  sps_solve : ParSubMesh -> BCMap -> Vector -> Vector -> Vector * Vector;
  calcFlux : ParSubMesh -> Vector -> Z -> double
}.

(** The solver once [Init] has run.  [J_parent_] and [V_parent_] point into
    the grid-function store; [V_parent_] is null when the potential was not
    registered. *)
Record t := {
  config : Config;
  Itotal_ : Coefficient;
  J_parent_ : string;
  V_parent_ : option string;
  mesh_parent_ : ParMesh;
  mesh_ : ParSubMesh;
  J_ : Vector;
  V_ : Vector;
  high_terminal_ : list Z;
  low_terminal_ : list Z;
  bc_maps_ : BCMap
}.

Definition highV : Coefficient := FunctionCoefficient (fun _ => 1%float).
Definition lowV : Coefficient := FunctionCoefficient (fun _ => 0%float).

(** [makeGridFunctions]: both child fields are allocated and zeroed. *)
Definition makeGridFunctions (be : Backend) (c : Config) (mesh : ParSubMesh)
  : Vector * Vector :=
  (repeat 0%float (child_HCurl_size be mesh (order_ c)),
   repeat 0%float (child_H1_size be mesh (order_ c))).

(** [setBCs]: the two terminals and the two Dirichlet conditions on ["V"]. *)
Definition setBCs (c : Config) : list Z * list Z * BCMap :=
  let high_terminal := [fst (elec_attrs_ c)] in
  let low_terminal := [snd (elec_attrs_ c)] in
  let high_DBC := {| bc_variable := "V"; bc_attributes := high_terminal;
                     bc_value := highV |} in
  let low_DBC := {| bc_variable := "V"; bc_attributes := low_terminal;
                    bc_value := lowV |} in
  (high_terminal, low_terminal,
   <["low_potential" := low_DBC]> (<["high_potential" := high_DBC]> ∅)).

(** The end of [SPSCurrent]: the flux through the reference face is
    computed and both fields are divided by its absolute value. *)
Definition normalise (how : VectorDivision) (flux : double)
    (JV : Vector * Vector) : Vector * Vector :=
  (Vector_div how (fabs flux) (fst JV), Vector_div how (fabs flux) (snd JV)).

(** [SPSCurrent]: the potential solve, the divergence cleaning, then the
    normalisation by the flux. *)
Definition SPSCurrent (be : Backend) (c : Config) (mesh : ParSubMesh)
    (bcs : BCMap) (JV : Vector * Vector) : Vector * Vector :=
  let JV1 := sps_solve be mesh bcs (fst JV) (snd JV) in
  let flux := calcFlux be mesh (fst JV1) (ref_face_ c) in
  normalise (vector_division be) flux JV1.

(** [OpenCoilSolver::Init]. *)
Definition Init (be : Backend) (c : Config)
    (gridfunctions : GridFunctions) (fespaces : FESpaces) (bc_map : BCMap)
    (coefficients : Coefficients) : M t :=
  Itotal ← match scalars coefficients !! I_coef_name_ c with
           | Some Q => mret Q
           | None =>
               mfem_error (I_coef_name_ c ++
                 " not found in coefficients when creating OpenCoilSolver" ++ LF)
           end;
  J_parent ← match gridfunctions !! J_gf_name_ c with
             | Some gf => mret gf
             | None =>
                 mfem_error (J_gf_name_ c ++
                   " not found in gridfunctions when creating OpenCoilSolver" ++ LF)
             end;
  V_parent ← match gridfunctions !! V_gf_name_ c with
             | Some _ => mret (Some (V_gf_name_ c))
             | None =>
                 cout (V_gf_name_ c ++
                   " not found in gridfunctions when creating OpenCoilSolver. ");;
                 mret None
             end;
  let mesh_parent := GetParMesh (ParFESpace J_parent) in
  call "initChildMesh";;
  let mesh := CreateFromDomain be mesh_parent (coil_domains_ c) in
  call "makeFESpaces";;
  call "makeGridFunctions";;
  let JV0 := makeGridFunctions be c mesh in
  call "setBCs";;
  let '(high, low, bcs) := setBCs c in
  call "SPSCurrent";;
  let JV := SPSCurrent be c mesh bcs JV0 in
  mret {| config := c; Itotal_ := Itotal; J_parent_ := J_gf_name_ c;
          V_parent_ := V_parent; mesh_parent_ := mesh_parent; mesh_ := mesh;
          J_ := fst JV; V_ := snd JV;
          high_terminal_ := high; low_terminal_ := low; bc_maps_ := bcs |}.

Definition with_fields (s : t) (J V : Vector) : t :=
  {| config := config s; Itotal_ := Itotal_ s; J_parent_ := J_parent_ s;
     V_parent_ := V_parent_ s; mesh_parent_ := mesh_parent_ s;
     mesh_ := mesh_ s; J_ := J; V_ := V;
     high_terminal_ := high_terminal_ s; low_terminal_ := low_terminal_ s;
     bc_maps_ := bc_maps_ s |}.

(** [mesh_->Transfer(child, *parent)] on a grid function of the store. *)
Definition transfer_to (mesh : ParSubMesh) (child : Vector) (parent : string)
    (gridfunctions : GridFunctions) : option GridFunctions :=
  gf ← gridfunctions !! parent;
  Some (<[parent := gf_with_data gf (Transfer mesh child (gf_data gf))]> gridfunctions).

(** [OpenCoilSolver::Apply(lf)], at the time last pushed into the
    coefficients and with mfem's way of dividing.  [None] is a null or
    dangling pointer followed, or a current coefficient this embedding
    cannot evaluate. *)
Definition Apply (how : VectorDivision) (s : t) (time : double)
    (gridfunctions : GridFunctions) (lf : Vector)
  : option (t * GridFunctions * Vector) :=
  I ← Eval time (Itotal_ s);
  let J1 := Vector_scale I (J_ s) in
  gfs1 ← transfer_to (mesh_ s) J1 (J_parent_ s) gridfunctions;
  let J2 := Vector_div how I J1 in
  '(V2, gfs2) ← match V_parent_ s with
                | Some V_parent =>
                    let V1 := Vector_scale I (V_ s) in
                    gfs ← transfer_to (mesh_ s) V1 V_parent gfs1;
                    Some (Vector_div how I V1, gfs)
                | None => Some (V_ s, gfs1)
                end;
  J_parent ← gfs2 !! J_parent_ s;
  Some (with_fields s J2 V2, gfs2, Vector_Add 1%float (gf_data J_parent) lf).

End OpenCoilSolver.

(* ===================================================================== *)
(** ** closed_coil.cpp                                                     *)
(* ===================================================================== *)

Module ClosedCoilSolver.
Import Double Mfem Run.

(** The loop of [isInDomain]: [verify] is set when the attribute of [el]
    equals an entry of [dom]; the attribute is read once per entry. *)
Fixpoint isInDomain_loop (mesh : ParMesh) (el : Z) (dom : list Z)
    (verify : bool) : option bool :=
  match dom with
  | [] => Some verify
  | sd :: rest =>
      match GetAttribute mesh el with
      | None => None
      | Some a => isInDomain_loop mesh el rest (if a =? sd then true else verify)
      end
  end.

(** [ClosedCoilSolver::isInDomain(el, dom, mesh)], the overload over an
    array of attributes. *)
Definition isInDomain (el : Z) (dom : list Z) (mesh : ParMesh) : option bool :=
  if el <? 0 then Some false
  else isInDomain_loop mesh el dom false.

(** [ClosedCoilSolver::isInDomain(el, sd, mesh)], the overload over one
    attribute. *)
Definition isInDomain1 (el : Z) (sd : Z) (mesh : ParMesh) : option bool :=
  if el <? 0 then Some false
  else match GetAttribute mesh el with
       | None => None
       | Some a => Some (a =? sd)
       end.

(** The constructor's arguments. *)
Record Config := {
  hcurl_fespace_name_ : string;
  J_gf_name_ : string;
  I_coef_name_ : string;
  coil_domains_ : list Z;
  electrode_face : Z;
  order_ : Z
}.

(** The solver once [Init] has run. *)
Record t := {
  config : Config;
  HCurlFESpace_parent_ : ParFiniteElementSpace;
  J_parent_ : string;
  Itotal_ : Coefficient;
  mesh_parent_ : ParMesh;
  elec_attrs_ : Z * Z;
  new_domain_attr_ : Z;
  submesh_domains_ : list (list Z);
  opencoil_ : list OpenCoilSolver.t
}.

(** The configuration [solveOpenCoils] builds for [opencoil_[i]]: the
    source and current names of the closed coil, the potential ["Phi"], the
    [i]-th submesh domains and the electrode pair as it stands. *)
Definition open_config (c : Config) (domains : list Z) (elec : Z * Z)
  : OpenCoilSolver.Config :=
  {| OpenCoilSolver.J_gf_name_ := J_gf_name_ c;
     OpenCoilSolver.V_gf_name_ := "Phi";
     OpenCoilSolver.I_coef_name_ := I_coef_name_ c;
     OpenCoilSolver.coil_domains_ := domains;
     OpenCoilSolver.order_ := order_ c;
     OpenCoilSolver.elec_attrs_ := elec;
     OpenCoilSolver.ref_face_ := fst elec |}.

(** [solveOpenCoils]: the first open coil on the coil domains with the
    electrodes as they are, the second on the wedge with the electrodes
    swapped and the reference face set to the second of the swapped pair;
    each is initialised with the caller's grid functions and coefficients
    and with registries of its own for spaces and boundary conditions. *)
Definition solveOpenCoils (be : OpenCoilSolver.Backend) (c : Config)
    (elec : Z * Z) (submesh_domains : list (list Z))
    (gridfunctions : GridFunctions) (coefficients : Coefficients)
  : M (list OpenCoilSolver.t) :=
  let dom0 := default [] (submesh_domains !! 0%nat) in
  let dom1 := default [] (submesh_domains !! 1%nat) in
  oc0 ← OpenCoilSolver.Init be (open_config c dom0 elec)
          gridfunctions ∅ ∅ coefficients;
  let swapped := (snd elec, fst elec) in
  oc1 ← OpenCoilSolver.Init be
          (OpenCoilSolver.setRefFace (snd swapped) (open_config c dom1 swapped))
          gridfunctions ∅ ∅ coefficients;
  mret [oc0; oc1].

(** [ClosedCoilSolver::Init].  [makeWedge] and [restoreAttributes] rewrite
    attributes inside the parent mesh; of [makeWedge] the embedding keeps
    what later steps read: the new domain attribute, the second electrode
    attribute and the two submesh domain lists. *)
Definition Init (be : OpenCoilSolver.Backend) (c : Config)
    (gridfunctions : GridFunctions) (fespaces : FESpaces) (bc_map : BCMap)
    (coefficients : Coefficients) : M t :=
  HCurlFESpace_parent ←
    match fespaces !! hcurl_fespace_name_ c with
    | Some fes => mret fes
    | None =>
        mfem_error (hcurl_fespace_name_ c ++
          " not found in fespaces when creating ClosedCoilSolver" ++ LF)
    end;
  J_parent ←
    match gridfunctions !! J_gf_name_ c with
    | Some gf => mret gf
    | None =>
        mfem_error (J_gf_name_ c ++
          " not found in gridfunctions when creating ClosedCoilSolver" ++ LF)
    end;
  Itotal ←
    match scalars coefficients !! I_coef_name_ c with
    | Some Q => mret Q
    | None =>
        cout (I_coef_name_ c ++
          " not found in coefficients when creating ClosedCoilSolver. " ++
          "Assuming unit current. ");;
        mret (ConstantCoefficient 1%float)
    end;
  let mesh_parent := GetParMesh HCurlFESpace_parent in
  call "resizeChildVectors";;
  call "makeWedge";;
  let new_domain_attr := Array_Max (elem_attributes mesh_parent) + 1 in
  let elec := (electrode_face c, Array_Max (bdr_elem_attributes mesh_parent) + 1) in
  let submesh_domains := [coil_domains_ c; [new_domain_attr]] in
  call "solveOpenCoils";;
  opencoil ← solveOpenCoils be c elec submesh_domains gridfunctions coefficients;
  call "restoreAttributes";;
  mret {| config := c; HCurlFESpace_parent_ := HCurlFESpace_parent;
          J_parent_ := J_gf_name_ c; Itotal_ := Itotal;
          mesh_parent_ := mesh_parent; elec_attrs_ := elec;
          new_domain_attr_ := new_domain_attr;
          submesh_domains_ := submesh_domains; opencoil_ := opencoil |}.

Definition with_opencoil (s : t) (oc : list OpenCoilSolver.t) : t :=
  {| config := config s; HCurlFESpace_parent_ := HCurlFESpace_parent_ s;
     J_parent_ := J_parent_ s; Itotal_ := Itotal_ s;
     mesh_parent_ := mesh_parent_ s; elec_attrs_ := elec_attrs_ s;
     new_domain_attr_ := new_domain_attr_ s;
     submesh_domains_ := submesh_domains_ s; opencoil_ := oc |}.

(** [ClosedCoilSolver::Apply(lf)]: both open coils are applied to [lf], then
    [lf] is set to zero and the parent current is added to it. *)
Definition Apply (how : VectorDivision) (s : t) (time : double)
    (gridfunctions : GridFunctions) (lf : Vector)
  : option (t * GridFunctions * Vector) :=
  oc0 ← opencoil_ s !! 0%nat;
  '(oc0', gfs0, lf0) ← OpenCoilSolver.Apply how oc0 time gridfunctions lf;
  oc1 ← opencoil_ s !! 1%nat;
  '(oc1', gfs1, lf1) ← OpenCoilSolver.Apply how oc1 time gfs0 lf0;
  let lf2 := Vector_assign 0%float lf1 in
  J_parent ← gfs1 !! J_parent_ s;
  Some (with_opencoil s [oc0'; oc1'], gfs1,
        Vector_Add 1%float (gf_data J_parent) lf2).

End ClosedCoilSolver.

(* ===================================================================== *)
(** ** av_solver.cpp                                                       *)
(* ===================================================================== *)

Module AVSolver.
Import Double Mfem Run.

(** The offsets set up by the constructor: [SetSize(3)], the two sizes
    written after a leading 0, then [PartialSum]. *)
Definition true_offsets (H1FESpace_ HCurlFESpace_ : ParFiniteElementSpace) : list Z :=
  PartialSum [0; GetVSize H1FESpace_; GetVSize HCurlFESpace_].

Definition p_name : string := "electric_potential".
Definition u_name : string := "magnetic_vector_potential".

(** The arithmetic [ImplicitSolve] hands to the boundary-condition map, to
    mfem's forms and to hypre. *)
Record Backend := {
  (* [_bc_map.applyEssentialBCs(name, ess_tdof_list, gf, pmesh_)] at a time:
     the essential degrees of freedom and the grid function with the
     boundary values written in *)
  applyEssentialBCs : string -> double -> Vector -> list nat * Vector;
  (* [_bc_map.applyIntegratedBCs(name, lf, pmesh_)] *)
  applyIntegratedBCs : string -> double -> Vector -> Vector;
  (* [b0->Assemble()] *)
  LinearForm_Assemble : Vector -> Vector;
  (* [a->FormLinearSystem(ess, x, b, A, X, B)]: the vectors [X] and [B] *)
  FormLinearSystem : ParBilinearForm -> list nat -> Vector -> Vector -> Vector * Vector;
  (* [a->RecoverFEMSolution(X, b, x)]: the new [x] *)
  RecoverFEMSolution : ParBilinearForm -> Vector -> Vector -> Vector -> Vector;
  (* [curlCurl->MultTranspose(u, b)] *)
  MultTranspose : ParBilinearForm -> Vector -> Vector;
  (* [grad->Mult(p, du)] *)
  grad_Mult : Vector -> Vector;
  (* [m->AddMult(x, y, a)]: the new [y] *)
  AddMult : ParBilinearForm -> Vector -> Vector -> double -> Vector;
  (* the source block: projection, divergence-free projection and
     [hCurlMass->AddMult] at a time: the new [b1] *)
  add_source : double -> Vector -> Vector;
  (* [pcg->Mult(B, X)] on the matrix the solver works on *)
  PCG_Mult : HypreSolver -> HypreParMatrix -> Vector -> Vector -> MultResult
}.

(** The operator once [Init] has run. *)
Record t := {
  H1FESpace_ : ParFiniteElementSpace;
  HCurlFESpace_ : ParFiniteElementSpace;
  offsets : list Z;
  time : double;                       (* [GetTime()] *)
  dtCoef : double;                     (* [dtCoef.constant] *)
  dt_A1 : double;
  alphaCoef : Coefficient;
  betaCoef : Coefficient;
  dtAlphaCoef : Coefficient;
  has_source : bool;                   (* [src_gf != NULL] *)
  a0 : ParBilinearForm;
  m1 : ParBilinearForm;
  curlCurl : ParBilinearForm;
  a1 : option ParBilinearForm;
  amg_a0 : option HypreSolver;
  pcg_a0 : option HypreSolver;
  ams_a1 : option HypreSolver;
  pcg_a1 : option HypreSolver;
  next_id : obj_id
}.

(** [buildM1(Sigma)]. *)
Definition buildM1 (fes : ParFiniteElementSpace) (Sigma : Coefficient)
    (dtc tm : double) : ParBilinearForm :=
  Assemble dtc tm
    (AddDomainIntegrator (VectorFEMassIntegrator Sigma) (new_ParBilinearForm fes)).

(** [buildCurl(MuInv)]. *)
Definition buildCurl (fes : ParFiniteElementSpace) (MuInv : Coefficient)
    (dtc tm : double) : ParBilinearForm :=
  Assemble dtc tm
    (AddDomainIntegrator (CurlCurlIntegrator MuInv) (new_ParBilinearForm fes)).

(** [AVSolver::Init], for the member fields [ImplicitSolve] reads: the
    coefficients, the forms [a0], [m1] and [curlCurl] assembled once, no
    [a1] and no solver yet.  [dt_A1] is not written by [Init]; [dt_A1_0]
    stands for what the member holds before its first assignment. *)
Definition Init (H1 HCurl : ParFiniteElementSpace) (source : bool)
    (tm dt_A1_0 : double) : t :=
  let dtc := 1%float in
  let alpha := TransformedCoefficient (ConstantCoefficient 1%float)
                 (MaterialCoefficient "magnetic_permeability") fracFunc in
  let beta := MaterialCoefficient "electrical_conductivity" in
  let dtAlpha := TransformedCoefficient DtCoefRef alpha prodFunc in
  {| H1FESpace_ := H1; HCurlFESpace_ := HCurl;
     offsets := true_offsets H1 HCurl;
     time := tm; dtCoef := dtc; dt_A1 := dt_A1_0;
     alphaCoef := alpha; betaCoef := beta; dtAlphaCoef := dtAlpha;
     has_source := source;
     a0 := Assemble dtc tm
             (AddDomainIntegrator (DiffusionIntegrator beta) (new_ParBilinearForm H1));
     m1 := buildM1 HCurl beta dtc tm;
     curlCurl := buildCurl HCurl alpha dtc tm;
     a1 := None;
     amg_a0 := None; pcg_a0 := None; ams_a1 := None; pcg_a1 := None;
     next_id := 0%nat |}.

(** [fabs(dt - dt_A1) > 1.0e-12 * dt]. *)
Definition dt_moved (dt dt_A1 : double) : bool :=
  PrimFloat.ltb (PrimFloat.mul 1.0e-12%float dt) (fabs (PrimFloat.sub dt dt_A1)).

(** [a1 == NULL || fabs(dt - dt_A1) > 1.0e-12 * dt]; the right operand is
    not evaluated when the left one holds. *)
Definition must_build_A1 (s : t) (dt : double) : bool :=
  match a1 s with
  | None => true
  | Some _ => dt_moved dt (dt_A1 s)
  end.

(** [buildA1(Sigma, DtMuInv)]: the old form is deleted, a new one gets the
    mass and the curl-curl integrators and is assembled; [dt_A1] takes the
    value of [dtCoef.constant]. *)
Definition buildA1 (fes : ParFiniteElementSpace) (Sigma DtMuInv : Coefficient)
    (dtc tm : double) : ParBilinearForm :=
  Assemble dtc tm
    (AddDomainIntegrator (CurlCurlIntegrator DtMuInv)
       (AddDomainIntegrator (VectorFEMassIntegrator Sigma) (new_ParBilinearForm fes))).

(** The preconditioners: a new [HypreBoomerAMG] on [A0], a new [HypreAMS]
    on [A1]. *)
Definition new_preconditioner (class : string) (id : obj_id) : HypreSolver :=
  {| solver_id := id; solver_class := class; solver_tol := 0%float;
     solver_max_iter := 0; solver_print_level := 0;
     solver_preconditioner := None |}.

(** A new [HyprePCG] on the matrix, with [SetTol], [SetMaxIter(1000)], [SetPrintLevel(0)]
    and [SetPreconditioner]. *)
Definition new_pcg (id : obj_id) (tol : double) (prec : option HypreSolver)
  : HypreSolver :=
  {| solver_id := id; solver_class := "HyprePCG"; solver_tol := tol;
     solver_max_iter := 1000; solver_print_level := 0;
     solver_preconditioner := solver_id <$> prec |}.

(** [if (ptr == NULL) ptr = new ...]: the object is allocated only when the
    pointer is null; the allocation is an event and takes the next serial
    number. *)
Definition ensure (ptr : option HypreSolver) (class : string) (next : obj_id)
    (make : obj_id -> HypreSolver) : M (HypreSolver * obj_id) :=
  match ptr with
  | Some o => mret (o, next)
  | None => emit (New class next);; mret (make next, S next)
  end.

Definition with_solvers (s : t) (dtc dtA1 : double) (A1 : option ParBilinearForm)
    (amg pcg0 ams pcg1 : option HypreSolver) (next : obj_id) : t :=
  {| H1FESpace_ := H1FESpace_ s; HCurlFESpace_ := HCurlFESpace_ s;
     offsets := offsets s; time := time s; dtCoef := dtc; dt_A1 := dtA1;
     alphaCoef := alphaCoef s; betaCoef := betaCoef s;
     dtAlphaCoef := dtAlphaCoef s; has_source := has_source s;
     a0 := a0 s; m1 := m1 s; curlCurl := curlCurl s; a1 := A1;
     amg_a0 := amg; pcg_a0 := pcg0; ams_a1 := ams; pcg_a1 := pcg1;
     next_id := next |}.

Definition offset (s : t) (k : nat) : Z := default 0 (offsets s !! k).

(** [AVSolver::ImplicitSolve(dt, X, dX_dt)].  [p_] and [u_] are windows of
    [X], [dp_] and [du_] windows of [dX_dt]; the result is the operator, [X]
    (whose potential block the first solve overwrites) and [dX_dt]. *)
Definition ImplicitSolve (be : Backend) (s : t) (dt : double) (X dX_dt : Vector)
  : M (t * Vector * Vector) :=
  let dX_dt := Vector_assign 0%float dX_dt in
  let dtc := dt in
  let nH1 := GetVSize (H1FESpace_ s) in
  let nHC := GetVSize (HCurlFESpace_ s) in
  let p_ := window (offset s 0) nH1 X in
  let u_ := window (offset s 1) nHC X in
  let du_ := window (offset s 1) nHC dX_dt in
  call "SetTime";;
  (* the potential: a0 p = b0 *)
  let Phi_gf := repeat 0%float (Z.to_nat nH1) in
  let b0 := repeat 0%float (Z.to_nat nH1) in
  let '(poisson_ess_tdof_list, Phi_gf) := applyEssentialBCs be p_name (time s) Phi_gf in
  let b0 := applyIntegratedBCs be p_name (time s) b0 in
  let b0 := LinearForm_Assemble be b0 in
  let A0 := eliminated_matrix (a0 s) poisson_ess_tdof_list in
  let '(X0, B0) := FormLinearSystem be (a0 s) poisson_ess_tdof_list Phi_gf b0 in
  '(amg, next) ← ensure (amg_a0 s) "HypreBoomerAMG" (next_id s)
                   (new_preconditioner "HypreBoomerAMG");
  '(pcg0, next) ← ensure (pcg_a0 s) "HyprePCG" next
                    (fun id => new_pcg id 1.0e-9%float (Some amg));
  call "HyprePCG::Mult";;
  let X0 := mr_x (PCG_Mult be pcg0 A0 B0 X0) in
  let p_ := RecoverFEMSolution be (a0 s) X0 b0 p_ in
  let X := write_window (offset s 0) p_ X in
  let dX_dt := write_window (offset s 0) (repeat 0%float (Z.to_nat nH1)) dX_dt in
  (* the right-hand side b1 *)
  let b1 := MultTranspose be (curlCurl s) u_ in
  let b1 := Vector_scale (-1)%float b1 in
  let du_ := grad_Mult be p_ in
  let b1 := AddMult be (m1 s) du_ b1 1%float in
  let b1 := if has_source s then add_source be (time s) b1 else b1 in
  let J_gf := repeat 0%float (Z.to_nat nHC) in
  let '(ess_tdof_list, J_gf) := applyEssentialBCs be u_name (time s) J_gf in
  let b1 := applyIntegratedBCs be u_name (time s) b1 in
  (* a1, rebuilt when absent or when dt moved *)
  '(A1form, dtA1) ←
    (if must_build_A1 s dt
     then call "buildA1";;
          mret (buildA1 (HCurlFESpace_ s) (betaCoef s) (dtAlphaCoef s) dtc (time s), dtc)
     else mret (default (new_ParBilinearForm (HCurlFESpace_ s)) (a1 s), dt_A1 s));
  let A1 := eliminated_matrix A1form ess_tdof_list in
  let '(X1, B1) := FormLinearSystem be A1form ess_tdof_list J_gf b1 in
  (* the solver and the preconditioner, created once *)
  '(ams, next) ← ensure (ams_a1 s) "HypreAMS" next (new_preconditioner "HypreAMS");
  '(pcg1, next) ← ensure (pcg_a1 s) "HyprePCG" next
                    (fun id => new_pcg id 1.0e-16%float (Some ams));
  call "HyprePCG::Mult";;
  let X1 := mr_x (PCG_Mult be pcg1 A1 B1 X1) in
  let du_ := RecoverFEMSolution be A1form X1 b1 du_ in
  let dX_dt := write_window (offset s 1) du_ dX_dt in
  mret (with_solvers s dtc dtA1 (Some A1form) (Some amg) (Some pcg0)
          (Some ams) (Some pcg1) next,
        X, dX_dt).

(** A sequence of implicit steps, one per time step handed in, each on the
    vectors the step before left. *)
Fixpoint run (be : Backend) (s : t) (dts : list double) (X dX_dt : Vector)
  : M (t * Vector * Vector) :=
  match dts with
  | [] => mret (s, X, dX_dt)
  | dt :: rest =>
      '(s', X', dX_dt') ← ImplicitSolve be s dt X dX_dt;
      run be s' rest X' dX_dt'
  end.

End AVSolver.


(* ===================================================================== *)
(** ** The systems the operators drive                                     *)
(* ===================================================================== *)

(** What [HCurlSolver] asks of its weak form and [HCurlOperator] of its
    equation system: the same four calls.  Neither class is among the
    sources, so the operators are embedded over any [S] that offers them.
    The update is handed the operator's sources, whose [Apply] is a method
    of an object, so it runs in [M] like the other calls. *)
Module System.
Import Double Mfem Run.

Record Ops (S : Type) := {
  setTimeStep : double -> S -> S;
  (* [update...(_bc_map, _sources)] at the time pushed into the coefficients *)
  update : double -> S -> M S;
  (* [FormLinearSystem(A, X, B)], at that time *)
  FormLinearSystem : double -> S -> M (S * HypreParMatrix * Vector * Vector);
  (* [RecoverFEMSolution(X, ...)]: the new contents of [dX_dt] *)
  RecoverFEMSolution : S -> Vector -> Vector -> M Vector
}.
Arguments setTimeStep {S}.
Arguments update {S}.
Arguments FormLinearSystem {S}.
Arguments RecoverFEMSolution {S}.

(** [_solver_options]. *)
Record SolverOptions := {
  Tolerance : double;
  MaxIter : Z;
  PrintLevel : Z
}.

(** A new [DefaultHCurlPCGSolver(_solver_options, A, fes)]. *)
Definition new_DefaultHCurlPCGSolver (opts : SolverOptions) (id : obj_id) : HypreSolver :=
  {| solver_id := id; solver_class := "DefaultHCurlPCGSolver";
     solver_tol := Tolerance opts; solver_max_iter := MaxIter opts;
     solver_print_level := PrintLevel opts; solver_preconditioner := None |}.

(** [solver->Mult(B, X)] on the matrix the solver was given. *)
Definition Mult_fn := HypreSolver -> HypreParMatrix -> Vector -> Vector -> MultResult.

End System.

(* ===================================================================== *)
(** ** The equation system                                                 *)
(* ===================================================================== *)

Module EquationSystem.
Import Double Mfem Run.

(** A kernel contributes to one kind of form.  [MixedVectorGradientKernel]
    (mixed_vector_gradient_kernel.cpp) is a [MixedBilinearFormKernel] whose
    [Apply] adds a [MixedVectorGradientIntegrator] of its coefficient; the
    curl-curl and mass kernels of [CurlCurlEquationSystem::addKernels]
    (hcurl_formulation.cpp) are [BilinearFormKernel]s.  A linear-form kernel adds its contribution to the vector of the form, at
    the time pushed into the coefficients. *)
Inductive Kernel :=
| BilinearFormKernel (integrator : Integrator)
| MixedBilinearFormKernel (trial_var : string) (integrator : Integrator)
| LinearFormKernel (name : string) (contribution : double -> Vector -> Vector).

(** [MixedVectorGradientKernel] with the coefficient [Init] resolved. *)
Definition MixedVectorGradientKernel (trial_var : string) (coef : Coefficient) : Kernel :=
  MixedBilinearFormKernel trial_var (MixedVectorGradientIntegrator coef).

(** [Kernel::Apply(form)] for the kernels that add an integrator. *)
Definition Apply_integrator (i : Integrator) (form : ParBilinearForm) : ParBilinearForm :=
  AddDomainIntegrator i form.

(** The boundary-condition collaborator of section 6 of the specification,
    at a time: [ApplyEssential] gives the essential degrees of freedom of a
    variable and the boundary field that holds the imposed values ([None]: a
    boundary attribute out of range), [ApplyIntegrated] adds the boundary
    integrals to a linear form. *)
Record BoundaryConditions := {
  ApplyEssential : string -> double -> Vector -> option (list nat * Vector);
  ApplyIntegrated : string -> double -> Vector -> Vector
}.

(** source_base.hpp: a [Source] is a kernel of linear forms, an object of
    some class whose virtual [Apply(lf)] the equation system calls.  [Apply]
    is a method: besides the form it is handed, it can rewrite the fields of
    its object and the grid functions the object points into, which is what
    [OpenCoilSolver::Apply] and [ClosedCoilSolver::Apply] do on every call.
    It runs at the time last pushed into the coefficients; [None] is a null
    or dangling pointer followed.  [source_target], the test variable whose
    linear form the source is applied to, is modelled from section 6 of the
    specification. *)
Record Source := {
  source_target : string;
  source_class : Type;
  source_object : source_class;
  source_Apply : source_class -> double -> GridFunctions -> Vector
                 -> option (source_class * GridFunctions * Vector)
}.

(** [source->Apply(lf)]: the source with its object as the call left it,
    the grid functions and the form. *)
Definition Source_Apply (src : Source) (time : double)
    (gridfunctions : GridFunctions) (lf : Vector)
  : option (Source * GridFunctions * Vector) :=
  '(object, gridfunctions, lf) ←
    source_Apply src (source_object src) time gridfunctions lf;
  Some ({| source_target := source_target src;
           source_class := source_class src;
           source_object := object;
           source_Apply := source_Apply src |}, gridfunctions, lf).

(** The two sources of open_coil.cpp and closed_coil.cpp as [Source]s,
    with mfem's way of dividing a vector. *)
Definition OpenCoilSource (how : VectorDivision) (target : string)
    (s : OpenCoilSolver.t) : Source :=
  {| source_target := target; source_class := OpenCoilSolver.t;
     source_object := s; source_Apply := OpenCoilSolver.Apply how |}.

Definition ClosedCoilSource (how : VectorDivision) (target : string)
    (s : ClosedCoilSolver.t) : Source :=
  {| source_target := target; source_class := ClosedCoilSolver.t;
     source_object := s; source_Apply := ClosedCoilSolver.Apply how |}.

(** What [FormLinearSystem] keeps for [RecoverSolution]: per variable, in
    block order, the essential degrees of freedom and the boundary field. *)
Abbreviation Elimination := (list (string * (list nat * Vector))).

(** Modelled from the spec: the Equation System of sections 3 and 4.3,
    whose class is not among the sources.  It owns the trial-variable names
    in insertion order (the block order), the kernels in registration order
    each with its test-variable bucket, the size of each variable's space,
    the time step, the bilinear, mixed and linear forms, and what the last
    [FormLinearSystem] eliminated ([None] before any). *)
Record t := {
  trial_var_names : list string;
  kernels : list (string * Kernel);
  var_size : string -> nat;
  dt : double;
  blfs : gmap string ParBilinearForm;
  mblfs : gmap (string * string) ParBilinearForm;
  lfs : gmap string Vector;
  eliminated : option Elimination
}.

Definition with_forms (es : t) (dt' : double)
    (b : gmap string ParBilinearForm) (m : gmap (string * string) ParBilinearForm)
    (l : gmap string Vector) (e : option Elimination) : t :=
  {| trial_var_names := trial_var_names es; kernels := kernels es;
     var_size := var_size es; dt := dt';
     blfs := b; mblfs := m; lfs := l; eliminated := e |}.

(** Modelled from the spec: [AddTrialVariableNameIfMissing] and
    [AddKernel], the two calls of [AddKernel] in problem_builder_base.hpp:
    a name is registered at most once, in insertion order; a kernel joins
    the bucket of its test variable, in registration order. *)
Definition AddTrialVariableNameIfMissing (name : string) (es : t) : t :=
  {| trial_var_names := if decide (name ∈ trial_var_names es)
                        then trial_var_names es
                        else trial_var_names es ++ [name];
     kernels := kernels es; var_size := var_size es; dt := dt es;
     blfs := blfs es; mblfs := mblfs es; lfs := lfs es;
     eliminated := eliminated es |}.

Definition AddKernel_to (name : string) (k : Kernel) (es : t) : t :=
  {| trial_var_names := trial_var_names es;
     kernels := kernels es ++ [(name, k)];
     var_size := var_size es; dt := dt es;
     blfs := blfs es; mblfs := mblfs es; lfs := lfs es;
     eliminated := eliminated es |}.

(** [EquationSystemProblemBuilderInterface::AddKernel(var_name, kernel)]
    (problem_builder_base.hpp). *)
Definition AddKernel (var_name : string) (k : Kernel) (es : t) : t :=
  AddKernel_to var_name k (AddTrialVariableNameIfMissing var_name es).

(** Whether a coefficient reads the time step. *)
Fixpoint reads_dt (Q : Coefficient) : bool :=
  match Q with
  | DtCoefRef => true
  | TransformedCoefficient Q1 Q2 _ => reads_dt Q1 || reads_dt Q2
  | _ => false
  end.

Definition integrator_coefficient (i : Integrator) : Coefficient :=
  match i with
  | DiffusionIntegrator Q | VectorFEMassIntegrator Q
  | CurlCurlIntegrator Q | MixedVectorGradientIntegrator Q => Q
  end.

Definition dt_dependent (form : ParBilinearForm) : bool :=
  existsb (fun i => reads_dt (integrator_coefficient i)) (bf_integrators form).

(** An invalidated form keeps its integrators and loses its matrix. *)
Definition invalidate (form : ParBilinearForm) : ParBilinearForm :=
  {| bf_space := bf_space form; bf_integrators := bf_integrators form;
     bf_matrix := None |}.

(** Modelled from the spec: [SetTimeStep(dt)] stores the step size and
    invalidates every bilinear form that depends on it. *)
Definition SetTimeStep (dt' : double) (es : t) : t :=
  with_forms es dt'
    ((fun form => if dt_dependent form then invalidate form else form) <$> blfs es)
    (mblfs es) (lfs es) (eliminated es).

Definition space_of (es : t) (v : string) : ParFiniteElementSpace :=
  {| fes_name := v;
     GetParMesh := {| elem_attributes := []; bdr_elem_attributes := [] |};
     GetVSize := Z.of_nat (var_size es v);
     GetTrueVSize := Z.of_nat (var_size es v) |}.

(** The integrators the kernels of a bucket add to its bilinear form, in
    registration order. *)
Definition bilinear_integrators (ks : list (string * Kernel)) (test_var : string)
  : list Integrator :=
  omap (fun '(v, k) =>
          match k with
          | BilinearFormKernel i => if decide (v = test_var) then Some i else None
          | _ => None
          end) ks.

Definition mixed_integrators (ks : list (string * Kernel)) (test_var trial_var : string)
  : list Integrator :=
  omap (fun '(v, k) =>
          match k with
          | MixedBilinearFormKernel tr i =>
              if decide (v = test_var /\ tr = trial_var) then Some i else None
          | _ => None
          end) ks.

(** The (test, trial) pairs some mixed kernel couples. *)
Definition mixed_pairs (ks : list (string * Kernel)) : list (string * string) :=
  omap (fun '(v, k) =>
          match k with
          | MixedBilinearFormKernel tr _ => Some (v, tr)
          | _ => None
          end) ks.

(** The linear form of a test variable before the sources: cleared, then
    the integrated boundary conditions, then the linear-form kernels of the
    bucket in registration order. *)
Definition kernel_linear_form (es : t) (bc : BoundaryConditions)
    (time : double) (test_var : string) : Vector :=
  let lf := repeat 0%float (var_size es test_var) in
  let lf := ApplyIntegrated bc test_var time lf in
  foldl (fun lf '(v, k) =>
           match k with
           | LinearFormKernel _ contribution =>
               if decide (v = test_var) then contribution time lf else lf
           | _ => lf
           end) lf (kernels es).

(** The sources aimed at a test variable applied to its linear form, in
    their order; each call hands the next one the grid functions it left. *)
Fixpoint apply_sources (time : double) (test_var : string) (sources : list Source)
    (gridfunctions : GridFunctions) (lf : Vector)
  : option (list Source * GridFunctions * Vector) :=
  match sources with
  | [] => Some ([], gridfunctions, lf)
  | src :: rest =>
      '(src, gridfunctions, lf) ←
        (if decide (source_target src = test_var)
         then Source_Apply src time gridfunctions lf
         else Some (src, gridfunctions, lf));
      '(rest, gridfunctions, lf) ← apply_sources time test_var rest gridfunctions lf;
      Some (src :: rest, gridfunctions, lf)
  end.

(** The linear form of a test variable: the kernels' part, then the
    sources. *)
Definition build_linear_form (es : t) (bc : BoundaryConditions) (time : double)
    (test_var : string) (sources : list Source) (gridfunctions : GridFunctions)
  : option (list Source * GridFunctions * Vector) :=
  apply_sources time test_var sources gridfunctions
    (kernel_linear_form es bc time test_var).

(** The linear forms of the variables in block order. *)
Fixpoint build_linear_forms (es : t) (bc : BoundaryConditions) (time : double)
    (vars : list string) (sources : list Source) (gridfunctions : GridFunctions)
  : option (list (string * Vector) * list Source * GridFunctions) :=
  match vars with
  | [] => Some ([], sources, gridfunctions)
  | v :: rest =>
      '(sources, gridfunctions, lf) ←
        build_linear_form es bc time v sources gridfunctions;
      '(forms, sources, gridfunctions) ←
        build_linear_forms es bc time rest sources gridfunctions;
      Some ((v, lf) :: forms, sources, gridfunctions)
  end.

(** The bilinear form of a test variable: cleared and given the integrators
    of its kernels again; its matrix is kept while valid and assembled when
    it was invalidated or never built. *)
Definition build_bilinear_form (es : t) (time : double) (test_var : string)
  : ParBilinearForm :=
  let fresh := foldl (fun form i => Apply_integrator i form)
                 (new_ParBilinearForm (space_of es test_var))
                 (bilinear_integrators (kernels es) test_var) in
  match blfs es !! test_var ≫= bf_matrix with
  | Some matrix =>
      {| bf_space := bf_space fresh; bf_integrators := bf_integrators fresh;
         bf_matrix := Some matrix |}
  | None => Assemble (dt es) time fresh
  end.

Definition build_mixed_form (es : t) (time : double) (pair : string * string)
  : ParBilinearForm :=
  Assemble (dt es) time
    (foldl (fun form i => Apply_integrator i form)
       (new_ParBilinearForm (space_of es (fst pair)))
       (mixed_integrators (kernels es) (fst pair) (snd pair))).

(** Modelled from the spec: [UpdateSystem(boundary_conditions, sources)]
    clears every form and re-applies every kernel to it; the mixed and the
    linear forms are assembled on every call, a bilinear form only when it
    is not valid.  Every trial variable gets its forms, kernels or not.
    The sources are the operator's objects and the grid functions the ones
    they point into: the call returns both as the sources' [Apply] left
    them. *)
Definition UpdateSystem (bc : BoundaryConditions) (time : double) (es : t)
    (sources : list Source) (gridfunctions : GridFunctions)
  : option (t * list Source * GridFunctions) :=
  '(forms, sources, gridfunctions) ←
    build_linear_forms es bc time (trial_var_names es) sources gridfunctions;
  Some (with_forms es (dt es)
          (list_to_map ((fun v => (v, build_bilinear_form es time v))
                          <$> trial_var_names es))
          (list_to_map ((fun p => (p, build_mixed_form es time p))
                          <$> mixed_pairs (kernels es)))
          (list_to_map forms)
          (eliminated es),
        sources, gridfunctions).

(** The block offsets: prefix sums of the variable sizes in block order. *)
Fixpoint block_offsets_from (start : nat) (sizes : list nat) : list nat :=
  match sizes with
  | [] => [start]
  | n :: rest => start :: block_offsets_from (start + n) rest
  end.

Definition block_offsets (es : t) : list nat :=
  block_offsets_from 0 (var_size es <$> trial_var_names es).

(** The essential elimination of one variable: its degrees of freedom and
    boundary field from the collaborator; a variable of size zero or a
    boundary attribute out of range is a failure. *)
Definition eliminate_variable (es : t) (bc : BoundaryConditions) (time : double)
    (v : string) : option (string * (list nat * Vector)) :=
  if decide (var_size es v = 0%nat) then None
  else
    '(ess, field) ← ApplyEssential bc v time (repeat 0%float (var_size es v));
    if decide (length field = var_size es v) then Some (v, (ess, field)) else None.

(** The block operator: per variable the matrix of its bilinear form with
    its essential degrees of freedom eliminated, in block order. *)
Definition block_terms (es : t) (entry : string * (list nat * Vector))
  : list IntegratorValue :=
  default [] (blfs es !! fst entry ≫= bf_matrix).

Definition block_eliminated (es : t) (k : nat) (entry : string * (list nat * Vector))
  : list nat :=
  map (fun i => (default 0 (block_offsets es !! k) + i)%nat) (fst (snd entry)).

Definition block_operator (es : t) (el : Elimination) : HypreParMatrix :=
  {| mat_terms := concat (map (block_terms es) el);
     mat_eliminated := concat (imap (block_eliminated es) el) |}.

(** The block unknown handed to the solver: per variable, the boundary
    field (imposed values at the essential degrees of freedom). *)
Definition block_unknown (el : Elimination) : Vector :=
  concat (map (fun entry : string * (list nat * Vector) => snd (snd entry)) el).

(** Modelled from the spec: [FormLinearSystem(op, x, rhs)] applies the
    essential elimination through the boundary-condition collaborator and
    produces the block operator, the block unknown and the block right-hand
    side; it fails on a variable of size zero or an attribute out of range.
    The arithmetic that moves eliminated columns to the right-hand side is
    the matrix library's ([eliminate_rhs]). *)
Definition FormLinearSystem (bc : BoundaryConditions) (time : double)
    (eliminate_rhs : HypreParMatrix -> Vector -> Vector -> Vector) (es : t)
  : M (t * HypreParMatrix * Vector * Vector) :=
  match mapM (eliminate_variable es bc time) (trial_var_names es) with
  | None => mfem_error "FormLinearSystem: empty variable or boundary attribute out of range"
  | Some el =>
      let A := block_operator es el in
      let x := block_unknown el in
      let rhs := eliminate_rhs A x
                   (concat ((fun v => default [] (lfs es !! v)) <$> trial_var_names es)) in
      mret (with_forms es (dt es) (blfs es) (mblfs es) (lfs es) (Some el), A, x, rhs)
  end.

(** One recovered field: the imposed value at an essential degree of
    freedom, the solved value of the block elsewhere. *)
Definition recover_field (ess : list nat) (field : Vector) (solved : Vector) : Vector :=
  imap (fun i imposed =>
          if decide (i ∈ ess) then imposed else default imposed (solved !! i))
       field.

Fixpoint recover_blocks (el : Elimination) (x : Vector) : list (string * Vector) :=
  match el with
  | [] => []
  | (v, (ess, field)) :: rest =>
      (v, recover_field ess field (take (length field) x))
      :: recover_blocks rest (drop (length field) x)
  end.

(** Modelled from the spec: [RecoverSolution(x, variables)] scatters the
    flat block solution into the per-variable fields and undoes the
    elimination of the essential degrees of freedom; called without a
    prior [FormLinearSystem] it is a fatal invariant violation. *)
Definition RecoverSolution (es : t) (x : Vector) : M (list (string * Vector)) :=
  match eliminated es with
  | None => mfem_error "RecoverSolution called without a prior FormLinearSystem"
  | Some el => mret (recover_blocks el x)
  end.

(** The fields written through the trial variables' windows of [dX_dt]. *)
Definition scatter (offsets : list nat) (fields : list (string * Vector))
    (dX_dt : Vector) : Vector :=
  foldl (fun acc entry =>
           write_window (Z.of_nat (default 0%nat (offsets !! fst entry)))
             (snd (snd entry)) acc)
        dX_dt (imap (fun k field => (k, field)) fields).

(** What the operator holds for its equation system: the system, the
    sources and the grid functions. *)
Abbreviation Problem := (t * list Source * GridFunctions)%type.

(** A source that follows a null pointer ends the run. *)
Definition source_fault {A} : M A :=
  fun tr => (Abort "Source::Apply: null pointer followed", tr).

(** The equation system as the operators drive it. *)
Definition ops (bc : BoundaryConditions)
    (eliminate_rhs : HypreParMatrix -> Vector -> Vector -> Vector)
  : System.Ops Problem :=
  {| System.setTimeStep := fun dt' '(es, sources, gridfunctions) =>
       (SetTimeStep dt' es, sources, gridfunctions);
     System.update := fun time '(es, sources, gridfunctions) =>
       match UpdateSystem bc time es sources gridfunctions with
       | Some problem => mret problem
       | None => source_fault
       end;
     System.FormLinearSystem := fun time '(es, sources, gridfunctions) =>
       '(es, A, x, rhs) ← FormLinearSystem bc time eliminate_rhs es;
       mret ((es, sources, gridfunctions), A, x, rhs);
     System.RecoverFEMSolution := fun '(es, _, _) X dX_dt =>
       fields ← RecoverSolution es X;
       mret (scatter (block_offsets es) fields dX_dt) |}.

End EquationSystem.


(* ===================================================================== *)
(** ** hcurl_solver.cpp                                                    *)
(* ===================================================================== *)

Module HCurlSolver.
Import Double Mfem Run System.

(** The offsets set up by [RegisterVariables] for the one variable [u_]. *)
Definition true_offsets (u_fes : ParFiniteElementSpace) : list Z :=
  PartialSum [0; GetVSize u_fes].

Section Operator.
Context {W : Type} (weak_form_ops : Ops W) (Mult : Mult_fn).

Record t := {
  u_fes : ParFiniteElementSpace;
  offsets : list Z;
  time : double;
  solver_options : SolverOptions;
  weak_form : W;
  a1_solver : option HypreSolver;
  next_id : obj_id
}.

(** [HCurlSolver::ImplicitSolve(dt, X, dX_dt)]; the closing update of
    [curl_u_] touches neither [X] nor [dX_dt] and is a call in the trace. *)
Definition ImplicitSolve (s : t) (dt : double) (X dX_dt : Vector)
  : M (t * Vector) :=
  let dX_dt := Vector_assign 0%float dX_dt in
  call "SetTime";;
  let wf := setTimeStep weak_form_ops dt (weak_form s) in
  wf ← update weak_form_ops (time s) wf;
  '(wf, A1, X1, B1) ← FormLinearSystem weak_form_ops (time s) wf;
  '(solver, next) ←
    match a1_solver s with
    | Some o => mret (o, next_id s)
    | None =>
        emit (New "DefaultHCurlPCGSolver" (next_id s));;
        mret (new_DefaultHCurlPCGSolver (solver_options s) (next_id s),
              S (next_id s))
    end;
  call "DefaultHCurlPCGSolver::Mult";;
  let X1 := mr_x (Mult solver A1 B1 X1) in
  dX_dt ← RecoverFEMSolution weak_form_ops wf X1 dX_dt;
  call "curl";;
  mret ({| u_fes := u_fes s; offsets := offsets s; time := time s;
           solver_options := solver_options s; weak_form := wf;
           a1_solver := Some solver; next_id := next |},
        dX_dt).

End Operator.

End HCurlSolver.

(* ===================================================================== *)
(** ** hcurl_formulation.cpp                                               *)
(* ===================================================================== *)

Module HCurlOperator.
Import Double Mfem Run System.

Section Operator.
Context {E : Type} (equation_system_ops : Ops E) (Mult : Mult_fn).

Record t := {
  true_offsets : list Z;
  time : double;
  solver_options : SolverOptions;
  equation_system : E;
  a1_solver : option HypreSolver;
  blockA : option HypreParMatrix;
  next_id : obj_id
}.

(** [HCurlOperator::ImplicitSolve(dt, X, dX_dt)].  The test variables are
    windows of [X] and the trial variables windows of [dX_dt]; the solver is
    made anew by [std::make_unique] on every call, which also destroys the
    one held before. *)
Definition ImplicitSolve (s : t) (dt : double) (X dX_dt : Vector)
  : M (t * Vector) :=
  call "SetTime";;
  let es := setTimeStep equation_system_ops dt (equation_system s) in
  es ← update equation_system_ops (time s) es;
  '(es, A, trueX, trueRhs) ← FormLinearSystem equation_system_ops (time s) es;
  emit (New "DefaultHCurlPCGSolver" (next_id s));;
  let solver := new_DefaultHCurlPCGSolver (solver_options s) (next_id s) in
  call "DefaultHCurlPCGSolver::Mult";;
  let trueX := mr_x (Mult solver A trueRhs trueX) in
  dX_dt ← RecoverFEMSolution equation_system_ops es trueX dX_dt;
  mret ({| true_offsets := true_offsets s; time := time s;
           solver_options := solver_options s; equation_system := es;
           a1_solver := Some solver; blockA := Some A;
           next_id := S (next_id s) |},
        dX_dt).

Fixpoint run (s : t) (dts : list double) (X dX_dt : Vector) : M (t * Vector) :=
  match dts with
  | [] => mret (s, dX_dt)
  | dt :: rest =>
      '(s', dX_dt') ← ImplicitSolve s dt X dX_dt;
      run s' rest X dX_dt'
  end.

End Operator.

End HCurlOperator.

(* ===================================================================== *)
(** ** Block layout as the specification words it                          *)
(* ===================================================================== *)

(** The offset of block [k] is the sum of the sizes of the blocks before it;
    the table has one more entry than there are blocks. *)
Definition sum_sizes (sizes : list Z) : Z := foldr Z.add 0 sizes.

Definition prefix_sums (sizes : list Z) : list Z :=
  map (fun k => sum_sizes (take k sizes)) (seq 0 (S (length sizes))).

(* ===================================================================== *)
(** ** Definitions used by the statements, and sample data               *)
(* ===================================================================== *)

Import Double Mfem.

Definition mesh3 : ParMesh :=
  {| elem_attributes := [1; 2; 3]; bdr_elem_attributes := [7] |}.

(** A rank that holds 5 local H1 degrees of freedom and owns 3 of them, and
    holds 7 local H(curl) degrees of freedom and owns 4. *)
Definition h1_shared : ParFiniteElementSpace :=
  {| fes_name := "_H1FESpace"; GetParMesh := mesh3;
     GetVSize := 5; GetTrueVSize := 3 |}.
Definition hcurl_shared : ParFiniteElementSpace :=
  {| fes_name := "_HCurlFESpace"; GetParMesh := mesh3;
     GetVSize := 7; GetTrueVSize := 4 |}.

(** A submesh whose degrees of freedom are the first of the parent's. *)
Definition leading_submesh (domains : list Z) : ParSubMesh :=
  {| submesh_domains := domains;
     Transfer := fun child parent => child ++ drop (length child) parent |}.

(** A backend whose potential solve leaves [J = (0.2, 3)] and [V = (2, 0)]
    and whose flux quadrature returns 2, so that [SPSCurrent] leaves
    [J_ = (0.1, 1.5)] and [V_ = (1, 0)]. *)
Definition sample_backend (how : VectorDivision) : OpenCoilSolver.Backend :=
  {| OpenCoilSolver.vector_division := how;
     OpenCoilSolver.CreateFromDomain := fun _ domains => leading_submesh domains;
     OpenCoilSolver.child_H1_size := fun _ _ => 2%nat;
     OpenCoilSolver.child_HCurl_size := fun _ _ => 2%nat;
     OpenCoilSolver.sps_solve := fun _ _ _ _ =>
       ([0.2%float; 3%float], [2%float; 0%float]);
     OpenCoilSolver.calcFlux := fun _ _ _ => 2%float |}.

Definition sample_J : ParGridFunction :=
  {| ParFESpace := hcurl_shared; gf_data := [0%float; 0%float; 0%float] |}.
Definition sample_Phi : ParGridFunction :=
  {| ParFESpace := h1_shared; gf_data := [0%float; 0%float; 0%float] |}.

Definition gfs_J : GridFunctions := <["J" := sample_J]> ∅.
Definition gfs_J_Phi : GridFunctions := <["Phi" := sample_Phi]> gfs_J.
Definition fes_HCurl : FESpaces := <["HCurl" := hcurl_shared]> ∅.
(** The coil current of the TEAM 7 example, 2742 ampere-turns. *)
Definition coefs_I : Coefficients :=
  {| scalars := <["I" := ConstantCoefficient 2742%float]> ∅ |}.

Definition open_cfg : OpenCoilSolver.Config :=
  {| OpenCoilSolver.J_gf_name_ := "J"; OpenCoilSolver.V_gf_name_ := "Phi";
     OpenCoilSolver.I_coef_name_ := "I"; OpenCoilSolver.coil_domains_ := [1; 2];
     OpenCoilSolver.order_ := 1; OpenCoilSolver.elec_attrs_ := (7, 8);
     OpenCoilSolver.ref_face_ := 7 |}.

Definition closed_cfg : ClosedCoilSolver.Config :=
  {| ClosedCoilSolver.hcurl_fespace_name_ := "HCurl";
     ClosedCoilSolver.J_gf_name_ := "J"; ClosedCoilSolver.I_coef_name_ := "I";
     ClosedCoilSolver.coil_domains_ := [1; 2];
     ClosedCoilSolver.electrode_face := 7; ClosedCoilSolver.order_ := 1 |}.



Definition initialised {A} (r : Run.Outcome A * list Run.Event) : option A :=
  match fst r with Run.Return s => Some s | Run.Abort _ => None end.

(** The sample coils after [Init]. *)
Definition sample_open (how : VectorDivision) (coefs : Coefficients)
  : option OpenCoilSolver.t :=
  initialised (Run.run (OpenCoilSolver.Init (sample_backend how) open_cfg
                          gfs_J_Phi ∅ ∅ coefs)).

Definition sample_closed (how : VectorDivision) (coefs : Coefficients)
  : option ClosedCoilSolver.t :=
  initialised (Run.run (ClosedCoilSolver.Init (sample_backend how) closed_cfg
                          gfs_J_Phi fes_HCurl ∅ coefs)).

Definition coefs_I0 : Coefficients :=
  {| scalars := <["I" := ConstantCoefficient 0%float]> ∅ |}.

Definition form_555 : Vector := [5%float; 5%float; 5%float].
Definition form_000 : Vector := [0%float; 0%float; 0%float].

(** The linear form a source's [Apply] returns, if it returns. *)
Definition applied_form {S} (r : option (S * GridFunctions * Vector)) : option Vector :=
  snd <$> r.

(** Where block [k] starts in the flat vector, by the lengths of the
    boundary fields before it. *)
Definition block_start (el : list (string * (list nat * Vector))) (k : nat) : nat :=
  foldr (fun entry acc => (length (snd (snd entry)) + acc)%nat) 0%nat (take k el).

(** A system of two variables: a scalar potential [p] of two degrees of
    freedom coupled to a vector field [u] of three, which carries a mass
    term and a curl-curl term scaled by the time step. *)
Definition sigma : Coefficient := MaterialCoefficient "electrical_conductivity".
Definition dt_nu : Coefficient :=
  TransformedCoefficient DtCoefRef (MaterialCoefficient "reluctivity") prodFunc.

Definition es_empty : EquationSystem.t :=
  {| EquationSystem.trial_var_names := [];
     EquationSystem.kernels := [];
     EquationSystem.var_size := fun v => if decide (v = "p") then 2%nat else 3%nat;
     EquationSystem.dt := 1%float;
     EquationSystem.blfs := ∅; EquationSystem.mblfs := ∅; EquationSystem.lfs := ∅;
     EquationSystem.eliminated := None |}.

Definition es_pu : EquationSystem.t :=
  EquationSystem.AddKernel "u"
    (EquationSystem.BilinearFormKernel (CurlCurlIntegrator dt_nu))
    (EquationSystem.AddKernel "u"
       (EquationSystem.BilinearFormKernel (VectorFEMassIntegrator sigma))
       (EquationSystem.AddKernel "p"
          (EquationSystem.MixedVectorGradientKernel "u" sigma) es_empty)).

(** [p] is held at 7 on its first degree of freedom, [u] at 8 and 9 on its
    last two. *)
Definition bc_pu : EquationSystem.BoundaryConditions :=
  {| EquationSystem.ApplyEssential := fun v _ _ =>
       if decide (v = "p") then Some ([0%nat], [7%float; 0%float])
       else Some ([1%nat; 2%nat], [0%float; 8%float; 9%float]);
     EquationSystem.ApplyIntegrated := fun _ _ lf => lf |}.

(** An elimination that leaves the right-hand side as it is. *)
Definition keep_rhs : HypreParMatrix -> Vector -> Vector -> Vector :=
  fun _ _ rhs => rhs.

(** The equation system an assembly leaves, if it returns. *)
Definition assembled (r : option EquationSystem.Problem) : option EquationSystem.t :=
  (fun problem => fst (fst problem)) <$> r.

(** [es_pu] with the time step 0.1, assembled without sources. *)
Definition es_pu_assembled : EquationSystem.t :=
  default es_pu
    (assembled (EquationSystem.UpdateSystem bc_pu 0%float
                  (EquationSystem.SetTimeStep 0.1%float es_pu) [] ∅)).

Definition es_pu_formed : EquationSystem.t :=
  EquationSystem.with_forms es_pu_assembled (EquationSystem.dt es_pu_assembled)
    (EquationSystem.blfs es_pu_assembled) (EquationSystem.mblfs es_pu_assembled)
    (EquationSystem.lfs es_pu_assembled)
    (Some [("p", ([0%nat], [7%float; 0%float]));
           ("u", ([1%nat; 2%nat], [0%float; 8%float; 9%float]))]).

Definition solved_12345 : Vector := [1%float; 2%float; 3%float; 4%float; 5%float].

(** The block operator and the block unknown a [FormLinearSystem] produced,
    if it returned. *)
Definition formed_operator
    (r : Run.Outcome (EquationSystem.t * HypreParMatrix * Vector * Vector)
         * list Run.Event) : option (HypreParMatrix * Vector) :=
  match fst r with
  | Run.Return (_, A, x, _) => Some (A, x)
  | Run.Abort _ => None
  end.

Definition coefs_I2 : Coefficients :=
  {| scalars := <["I" := ConstantCoefficient 2%float]> ∅ |}.
Definition coefs_I9 : Coefficients :=
  {| scalars := <["I" := ConstantCoefficient 9%float]> ∅ |}.

(** The sample open coil as the one source of the variable [u]. *)
Definition coil_sources (how : VectorDivision) (coefs : Coefficients)
  : list EquationSystem.Source :=
  match sample_open how coefs with
  | Some s => [EquationSystem.OpenCoilSource how "u" s]
  | None => []
  end.

(** The sample system after one assembly with the coil at the current 2 as
    its source, and after one more. *)
Definition settled_once : EquationSystem.Problem :=
  default (es_pu, [], ∅)
    (EquationSystem.UpdateSystem bc_pu 0%float es_pu
       (coil_sources by_reciprocal coefs_I2) gfs_J_Phi).

Definition settled_twice : EquationSystem.Problem :=
  default (es_pu, [], ∅)
    (EquationSystem.UpdateSystem bc_pu 0%float
       (fst (fst settled_once)) (snd (fst settled_once)) (snd settled_once)).

(** The allocation [if (ptr == NULL) ptr = new ...] performs, if any. *)
Definition allocation (ptr : option HypreSolver) (class : string) (id : obj_id)
  : list Run.Event :=
  match ptr with None => [Run.New class id] | Some _ => [] end.

Definition after (ptr : option HypreSolver) (id : obj_id) : obj_id :=
  match ptr with None => S id | Some _ => id end.

(** The object a pointer holds after [if (ptr == NULL) ptr = new ...]. *)
Definition held (ptr : option HypreSolver) (fresh : HypreSolver) : HypreSolver :=
  default fresh ptr.

Definition AV_events (s : AVSolver.t) (dt : double) : list Run.Event :=
  let n0 := AVSolver.next_id s in
  let n1 := after (AVSolver.amg_a0 s) n0 in
  let n2 := after (AVSolver.pcg_a0 s) n1 in
  let n3 := after (AVSolver.ams_a1 s) n2 in
  [Run.Call "SetTime"]
  ++ allocation (AVSolver.amg_a0 s) "HypreBoomerAMG" n0
  ++ allocation (AVSolver.pcg_a0 s) "HyprePCG" n1
  ++ [Run.Call "HyprePCG::Mult"]
  ++ (if AVSolver.must_build_A1 s dt then [Run.Call "buildA1"] else [])
  ++ allocation (AVSolver.ams_a1 s) "HypreAMS" n2
  ++ allocation (AVSolver.pcg_a1 s) "HyprePCG" n3
  ++ [Run.Call "HyprePCG::Mult"].

Definition h1_2 : ParFiniteElementSpace :=
  {| fes_name := "_H1FESpace"; GetParMesh := mesh3; GetVSize := 2; GetTrueVSize := 2 |}.
Definition hcurl_3 : ParFiniteElementSpace :=
  {| fes_name := "_HCurlFESpace"; GetParMesh := mesh3; GetVSize := 3; GetTrueVSize := 3 |}.

(** What a solve reports about itself, besides the iterate. *)
Definition Status : Type := bool * Z * double.

(** The same solve reporting [status]. *)
Definition reporting (status : HypreSolver -> HypreParMatrix -> Vector -> Vector -> Status)
    (Mult : System.Mult_fn) : System.Mult_fn :=
  fun solver A B X =>
    {| mr_x := mr_x (Mult solver A B X);
       mr_converged := fst (fst (status solver A B X));
       mr_num_iterations := snd (fst (status solver A B X));
       mr_final_res_norm := snd (status solver A B X) |}.

Definition AV_reporting
    (status : HypreSolver -> HypreParMatrix -> Vector -> Vector -> Status)
    (be : AVSolver.Backend) : AVSolver.Backend :=
  {| AVSolver.applyEssentialBCs := AVSolver.applyEssentialBCs be;
     AVSolver.applyIntegratedBCs := AVSolver.applyIntegratedBCs be;
     AVSolver.LinearForm_Assemble := AVSolver.LinearForm_Assemble be;
     AVSolver.FormLinearSystem := AVSolver.FormLinearSystem be;
     AVSolver.RecoverFEMSolution := AVSolver.RecoverFEMSolution be;
     AVSolver.MultTranspose := AVSolver.MultTranspose be;
     AVSolver.grad_Mult := AVSolver.grad_Mult be;
     AVSolver.AddMult := AVSolver.AddMult be;
     AVSolver.add_source := AVSolver.add_source be;
     AVSolver.PCG_Mult := reporting status (AVSolver.PCG_Mult be) |}.

(** A solve that stops on its iteration budget: the iterate is the initial
    guess, the report is a failure with the residual norm left at 1. *)
Definition stalled_Mult (budget : Z) : System.Mult_fn :=
  fun _ _ _ X =>
    {| mr_x := X; mr_converged := false;
       mr_num_iterations := budget; mr_final_res_norm := 1%float |}.

(** A backend without boundary conditions whose forms act as the identity
    and whose solves stall on a budget of 1000 iterations. *)
Definition av_backend : AVSolver.Backend :=
  {| AVSolver.applyEssentialBCs := fun _ _ gf => ([], gf);
     AVSolver.applyIntegratedBCs := fun _ _ lf => lf;
     AVSolver.LinearForm_Assemble := fun lf => lf;
     AVSolver.FormLinearSystem := fun _ _ x b => (x, b);
     AVSolver.RecoverFEMSolution := fun _ X _ _ => X;
     AVSolver.MultTranspose := fun _ u => u;
     AVSolver.grad_Mult := fun _ => [0%float; 0%float; 0%float];
     AVSolver.AddMult := fun _ _ y _ => y;
     AVSolver.add_source := fun _ b => b;
     AVSolver.PCG_Mult := stalled_Mult 1000 |}.

Definition av0 : AVSolver.t := AVSolver.Init h1_2 hcurl_3 false 0%float 0%float.

Definition X5 : Vector := [1%float; 2%float; 3%float; 4%float; 5%float].
Definition dX5 : Vector := [0%float; 0%float; 0%float; 0%float; 0%float].

(** The operator a run leaves, if it returns. *)
Definition final_state {S A B} (r : Run.Outcome (S * A * B) * list Run.Event) : option S :=
  match fst r with
  | Run.Return (s, _, _) => Some s
  | Run.Abort _ => None
  end.

Definition final_state2 {S A} (r : Run.Outcome (S * A) * list Run.Event) : option S :=
  match fst r with
  | Run.Return (s, _) => Some s
  | Run.Abort _ => None
  end.

(** [av0] after a first step with time step 0.1. *)
Definition av1 : option AVSolver.t :=
  final_state (AVSolver.ImplicitSolve av_backend av0 0.1%float X5 dX5 []).

Definition hcurl_options (budget : Z) : System.SolverOptions :=
  {| System.Tolerance := 1.0e-16%float; System.MaxIter := budget;
     System.PrintLevel := 0 |}.

Definition pu_ops : System.Ops EquationSystem.Problem :=
  EquationSystem.ops bc_pu keep_rhs.

Definition op0 (budget : Z) : HCurlOperator.t :=
  {| HCurlOperator.true_offsets := [0; 2; 5];
     HCurlOperator.time := 0%float;
     HCurlOperator.solver_options := hcurl_options budget;
     HCurlOperator.equation_system := (es_pu, [], ∅) : EquationSystem.Problem;
     HCurlOperator.a1_solver := None;
     HCurlOperator.blockA := None;
     HCurlOperator.next_id := 0%nat |}.

(** [op0] after a first step with time step 0.1. *)
Definition op1 (budget : Z) : option HCurlOperator.t :=
  final_state2 (HCurlOperator.ImplicitSolve pu_ops (stalled_Mult budget)
                  (op0 budget) 0.1%float X5 dX5 []).

(** What [AVSolver::ImplicitSolve] hands its two solves and does with what
    they leave: [X'] is [X] with the potential block replaced by the
    recovered solution of the iterate the first [Mult] left, [dX_dt'] is the
    zeroed [dX_dt] with the block of the vector potential replaced by the
    recovered solution of the iterate the second [Mult] left; the solvers
    and the form [a1] are the ones the operator holds after the step. *)
Definition AV_iterates (be : AVSolver.Backend) (s : AVSolver.t) (X dX_dt : Vector)
    (s' : AVSolver.t) (X' dX_dt' : Vector) : Prop :=
  let nH1 := GetVSize (AVSolver.H1FESpace_ s) in
  let nHC := GetVSize (AVSolver.HCurlFESpace_ s) in
  let zeros0 := repeat 0%float (Z.to_nat nH1) in
  let zeros1 := repeat 0%float (Z.to_nat nHC) in
  let b0 := AVSolver.LinearForm_Assemble be
              (AVSolver.applyIntegratedBCs be AVSolver.p_name (AVSolver.time s) zeros0) in
  exists pcg0 pcg1 A1form ess0 Phi X0 B0 ess1 J_gf b1 X1 B1,
    AVSolver.pcg_a0 s' = Some pcg0 /\
    AVSolver.pcg_a1 s' = Some pcg1 /\
    AVSolver.a1 s' = Some A1form /\
    AVSolver.applyEssentialBCs be AVSolver.p_name (AVSolver.time s) zeros0
    = (ess0, Phi) /\
    AVSolver.FormLinearSystem be (AVSolver.a0 s) ess0 Phi b0 = (X0, B0) /\
    AVSolver.applyEssentialBCs be AVSolver.u_name (AVSolver.time s) zeros1
    = (ess1, J_gf) /\
    AVSolver.FormLinearSystem be A1form ess1 J_gf b1 = (X1, B1) /\
    let p_ := AVSolver.RecoverFEMSolution be (AVSolver.a0 s)
                (mr_x (AVSolver.PCG_Mult be pcg0
                         (eliminated_matrix (AVSolver.a0 s) ess0) B0 X0))
                b0 (window (AVSolver.offset s 0) nH1 X) in
    let du_ := AVSolver.RecoverFEMSolution be A1form
                 (mr_x (AVSolver.PCG_Mult be pcg1
                          (eliminated_matrix A1form ess1) B1 X1))
                 b1 (AVSolver.grad_Mult be p_) in
    X' = write_window (AVSolver.offset s 0) p_ X /\
    dX_dt' = write_window (AVSolver.offset s 1) du_
               (write_window (AVSolver.offset s 0) zeros0
                  (Vector_assign 0%float dX_dt)).

(* ===================================================================== *)
(** * Properties                                                           *)
(* ===================================================================== *)

(** ** Element membership in a coil domain *)

Lemma isInDomain_loop_some mesh el dom a verify :
  GetAttribute mesh el = Some a ->
  ClosedCoilSolver.isInDomain_loop mesh el dom verify
  = Some (verify || existsb (Z.eqb a) dom).
Proof.
  intros Ha. revert verify.
  induction dom as [|sd rest IH]; intros verify; simpl.
  - now rewrite orb_false_r.
  - rewrite Ha, IH.
    destruct (a =? sd), verify; reflexivity.
Qed.

(** C10. A negative (ghost) element index is never in the domain, whatever
    the attribute list and the mesh; for a non-negative index whose element
    has attribute [a], [isInDomain] is true exactly when [a] is one of the
    attributes in the list. *)
Theorem isInDomain_ghost_and_membership (el : Z) (dom : list Z) (mesh : ParMesh) :
  (el < 0 -> ClosedCoilSolver.isInDomain el dom mesh = Some false) /\
  (0 <= el -> forall a, GetAttribute mesh el = Some a ->
     exists b, ClosedCoilSolver.isInDomain el dom mesh = Some b /\
               (b = true <-> In a dom)).
Proof.
  unfold ClosedCoilSolver.isInDomain. split.
  - intros Hneg. apply Z.ltb_lt in Hneg. now rewrite Hneg.
  - intros Hpos a Ha.
    assert (Hge : (el <? 0) = false) by (apply Z.ltb_ge; lia).
    rewrite Hge, (isInDomain_loop_some _ _ _ a) by exact Ha.
    eexists; split; [reflexivity|]. simpl.
    rewrite existsb_exists. split.
    + intros (x & Hin & Heq). apply Z.eqb_eq in Heq. now subst.
    + intros Hin. exists a. split; [exact Hin | apply Z.eqb_refl].
Qed.

Lemma isInDomain_ghost_and_membership_witness :
  ClosedCoilSolver.isInDomain (-1) [3; 4] mesh3 = Some false /\
  exists b, ClosedCoilSolver.isInDomain 2 [3; 4] mesh3 = Some b /\
            (b = true <-> In 3 [3; 4]).
Proof.
  split.
  - apply (proj1 (isInDomain_ghost_and_membership (-1) [3; 4] mesh3)). lia.
  - apply (proj2 (isInDomain_ghost_and_membership 2 [3; 4] mesh3)).
    + lia.
    + reflexivity.
Defined.

(** ** Block offsets *)

Lemma int_wrap_small z : - 2 ^ 31 <= z < 2 ^ 31 -> int_wrap z = z.
Proof.
  intros Hz. unfold int_wrap.
  rewrite Z.mod_small by lia. lia.
Qed.

Lemma sum_sizes_nonneg sizes : Forall (fun s => 0 <= s) sizes -> 0 <= sum_sizes sizes.
Proof.
  induction 1 as [|s sizes Hs _ IH]; simpl; [lia|].
  unfold sum_sizes in *. simpl. lia.
Qed.

(** Without overflow the running sum of [PartialSum] is the sum of the
    entries read so far. *)
Lemma PartialSum_from_prefix data : forall sum,
  Forall (fun s => 0 <= s) data ->
  0 <= sum -> sum + sum_sizes data < 2 ^ 31 ->
  PartialSum_from sum data
  = map (fun k => sum + sum_sizes (take k data)) (seq 1 (length data)).
Proof.
  induction data as [|d rest IH]; intros sum Hall Hsum Hbound; [reflexivity|].
  inversion Hall as [|? ? Hd Hrest]; subst.
  pose proof (sum_sizes_nonneg rest Hrest) as Hnn.
  assert (Hcons : sum_sizes (d :: rest) = d + sum_sizes rest) by reflexivity.
  cbn [PartialSum_from length seq map].
  rewrite int_wrap_small by lia.
  rewrite IH by (try assumption; lia).
  f_equal.
  - cbn. unfold sum_sizes. simpl. lia.
  - rewrite <- (seq_shift (length rest) 1), map_map.
    apply map_ext. intros k. cbn [take].
    change (sum_sizes (d :: take k rest)) with (d + sum_sizes (take k rest)). lia.
Qed.

Lemma PartialSum_prefix_sums sizes :
  Forall (fun s => 0 <= s) sizes -> sum_sizes sizes < 2 ^ 31 ->
  PartialSum (0 :: sizes) = prefix_sums sizes.
Proof.
  intros Hall Hbound. unfold PartialSum, prefix_sums.
  cbn [PartialSum_from seq map].
  rewrite int_wrap_small by lia.
  rewrite PartialSum_from_prefix by (try assumption; lia).
  f_equal.
Qed.

(** C5 (as amended). The offset tables are the prefix sums, in the order the
    operator lists its variables, of each variable's local vector size
    [GetVSize]: for [AVSolver] the scalar potential on H1 first and the
    vector potential on H(curl) second, for [HCurlSolver] the single
    H(curl) variable; offset 0 comes first and each later offset is the sum
    of the sizes before it.  The sizes are non-negative and their total
    fits an [int]. *)
Theorem true_offsets_prefix_sums_of_vsize (H1 HCurl : ParFiniteElementSpace) :
  0 <= GetVSize H1 -> 0 <= GetVSize HCurl ->
  GetVSize H1 + GetVSize HCurl < 2 ^ 31 ->
  AVSolver.true_offsets H1 HCurl = prefix_sums [GetVSize H1; GetVSize HCurl] /\
  AVSolver.true_offsets H1 HCurl = [0; GetVSize H1; GetVSize H1 + GetVSize HCurl] /\
  HCurlSolver.true_offsets HCurl = prefix_sums [GetVSize HCurl] /\
  HCurlSolver.true_offsets HCurl = [0; GetVSize HCurl].
Proof.
  intros H1nn HCnn Hbound.
  assert (Hav : AVSolver.true_offsets H1 HCurl
                = prefix_sums [GetVSize H1; GetVSize HCurl]).
  { unfold AVSolver.true_offsets. apply PartialSum_prefix_sums.
    - repeat constructor; assumption.
    - unfold sum_sizes. simpl. lia. }
  assert (Hhc : HCurlSolver.true_offsets HCurl = prefix_sums [GetVSize HCurl]).
  { unfold HCurlSolver.true_offsets. apply PartialSum_prefix_sums.
    - repeat constructor; assumption.
    - unfold sum_sizes. simpl. lia. }
  repeat split; try assumption.
  - rewrite Hav. unfold prefix_sums, sum_sizes. simpl. repeat f_equal; lia.
  - rewrite Hhc. unfold prefix_sums, sum_sizes. simpl. repeat f_equal; lia.
Qed.

Lemma true_offsets_prefix_sums_of_vsize_witness :
  AVSolver.true_offsets h1_shared hcurl_shared = prefix_sums [5; 7] /\
  AVSolver.true_offsets h1_shared hcurl_shared = [0; 5; 12] /\
  HCurlSolver.true_offsets hcurl_shared = prefix_sums [7] /\
  HCurlSolver.true_offsets hcurl_shared = [0; 7].
Proof.
  apply (true_offsets_prefix_sums_of_vsize h1_shared hcurl_shared);
    simpl; lia.
Defined.

(** C5 as stated fails: on a rank whose spaces hold shared degrees of
    freedom it does not own, the offsets are not the prefix sums of the
    true-DOF sizes. *)
Lemma true_offsets_not_prefix_sums_of_true_sizes :
  AVSolver.true_offsets h1_shared hcurl_shared
    <> prefix_sums [GetTrueVSize h1_shared; GetTrueVSize hcurl_shared] /\
  HCurlSolver.true_offsets hcurl_shared
    <> prefix_sums [GetTrueVSize hcurl_shared].
Proof.
  split; vm_compute; discriminate.
Qed.

(** ** Sample data: a two-element coil on a three-element mesh *)

(** ** Missing dependencies at [Init] *)










(** ** Doubles: what a zero divisor does *)

Lemma is_zero_Prim2SF (x : double) :
  is_zero x = true -> exists s, Prim2SF x = S754_zero s.
Proof.
  unfold is_zero. rewrite FloatAxioms.eqb_spec.
  change (Prim2SF 0%float) with (S754_zero false).
  destruct (Prim2SF x) as [s|s| |s m e]; cbn; intros H;
    try discriminate; try (destruct s; discriminate).
  now exists s.
Qed.

Lemma isnan_Prim2SF (x : double) : Prim2SF x = S754_nan -> isnan x = true.
Proof.
  intros H. unfold isnan, PrimFloat.is_nan.
  now rewrite FloatAxioms.eqb_spec, H.
Qed.

Lemma isfinite_Prim2SF (x : double) :
  (Prim2SF x = S754_nan \/ exists s, Prim2SF x = S754_infinity s) ->
  isfinite x = false.
Proof.
  unfold isfinite. rewrite FloatAxioms.ltb_spec, FloatAxioms.abs_spec.
  change (Prim2SF infinity) with (S754_infinity false).
  intros [H | [s H]]; rewrite H; reflexivity.
Qed.

Lemma Prim2SF_one : Prim2SF 1%float = S754_finite false 4503599627370496 (-52).
Proof. reflexivity. Qed.

(** [x * I] divided by [I], either way, is NaN for every [x] when [I] is
    zero. *)
Lemma scale_divide_by_zero_nan (how : VectorDivision) (x I : double) :
  is_zero I = true -> isnan (divide how (PrimFloat.mul x I) I) = true.
Proof.
  intros HI. destruct (is_zero_Prim2SF I HI) as [s Hs].
  apply isnan_Prim2SF. destruct how; cbn [divide].
  - rewrite FloatAxioms.div_spec, FloatAxioms.mul_spec, Hs.
    destruct (Prim2SF x) as [sx|sx| |sx mx ex]; reflexivity.
  - rewrite !FloatAxioms.mul_spec, FloatAxioms.div_spec, Hs, Prim2SF_one.
    destruct (Prim2SF x) as [sx|sx| |sx mx ex]; reflexivity.
Qed.

(** [x] divided by [|flux|], either way, is NaN or infinite for every [x]
    when [flux] is zero. *)
Lemma divide_by_abs_zero_not_finite (how : VectorDivision) (x flux : double) :
  is_zero flux = true -> isfinite (divide how x (fabs flux)) = false.
Proof.
  intros Hf. destruct (is_zero_Prim2SF flux Hf) as [s Hs].
  apply isfinite_Prim2SF. unfold fabs. destruct how; cbn [divide].
  - rewrite FloatAxioms.div_spec, FloatAxioms.abs_spec, Hs.
    destruct (Prim2SF x) as [sx|sx| |sx mx ex]; cbn; eauto.
  - rewrite FloatAxioms.mul_spec, FloatAxioms.div_spec, FloatAxioms.abs_spec,
      Hs, Prim2SF_one.
    destruct (Prim2SF x) as [sx|sx| |sx mx ex]; cbn; eauto.
Qed.

(** ** The coil sources applied to a linear form *)

Lemma Vector_Add_one (x y : Vector) : Vector_Add 1%float x y = add_scaled 1%float x y.
Proof. reflexivity. Qed.

Lemma add_scaled_length a x y : length (add_scaled a x y) = length y.
Proof.
  revert x. induction y as [|yi y IH]; intros [|xi x]; simpl; auto.
Qed.

Lemma Vector_Add_length a x y : length (Vector_Add a x y) = length y.
Proof.
  unfold Vector_Add. destruct (PrimFloat.eqb a 0%float); [reflexivity|].
  apply add_scaled_length.
Qed.

(** Entry by entry, [lf.Add(1.0, x)] leaves [lf[i] + 1.0 * x[i]] where [x]
    has an entry and [lf[i]] where it has none. *)
Lemma Vector_Add_one_lookup (x y : Vector) (i : nat) :
  Vector_Add 1%float x y !! i
  = match y !! i, x !! i with
    | Some yi, Some xi => Some (PrimFloat.add yi (PrimFloat.mul 1%float xi))
    | Some yi, None => Some yi
    | None, _ => None
    end.
Proof.
  rewrite Vector_Add_one.
  revert x i. induction y as [|yi y IH]; intros [|xi x] [|i]; cbn; auto.
  now destruct (y !! i).
Qed.

(** What [OpenCoilSolver::Apply] does to the solver and to the store does
    not depend on the linear form; the form receives the parent current. *)
Lemma OpenCoilSolver_Apply_inv how s time (gfs : GridFunctions) lf s' gfs' lf' :
  OpenCoilSolver.Apply how s time gfs lf = Some (s', gfs', lf') ->
  exists I J_parent,
    Eval time (OpenCoilSolver.Itotal_ s) = Some I /\
    gfs' !! OpenCoilSolver.J_parent_ s = Some J_parent /\
    lf' = Vector_Add 1%float (gf_data J_parent) lf /\
    OpenCoilSolver.J_ s'
    = map (fun x => divide how (PrimFloat.mul x I) I) (OpenCoilSolver.J_ s) /\
    OpenCoilSolver.V_ s'
    = match OpenCoilSolver.V_parent_ s with
      | Some _ => map (fun x => divide how (PrimFloat.mul x I) I)
                      (OpenCoilSolver.V_ s)
      | None => OpenCoilSolver.V_ s
      end /\
    forall lf2, OpenCoilSolver.Apply how s time gfs lf2
                = Some (s', gfs', Vector_Add 1%float (gf_data J_parent) lf2).
Proof.
  unfold OpenCoilSolver.Apply. intros H.
  destruct (Eval time (OpenCoilSolver.Itotal_ s)) as [I|] eqn:HI; [|discriminate].
  cbn in H.
  destruct (OpenCoilSolver.transfer_to _ _ (OpenCoilSolver.J_parent_ s) gfs)
    as [gfs1|] eqn:H1; [|discriminate].
  cbn in H.
  destruct (OpenCoilSolver.V_parent_ s) as [Vp|] eqn:HV; cbn in H.
  - destruct (OpenCoilSolver.transfer_to _ _ Vp gfs1) as [gfs2|] eqn:H2;
      [|discriminate].
    cbn in H.
    destruct (gfs2 !! OpenCoilSolver.J_parent_ s) as [Jp|] eqn:HJ; [|discriminate].
    cbn in H. injection H as <- <- <-.
    exists I, Jp. cbn.
    unfold Vector_div, Vector_scale. rewrite !map_map.
    split_and!; try reflexivity; try assumption.
    intros lf2. unfold Vector_scale in H1, H2.
    rewrite H1. cbn. rewrite H2. cbn. rewrite HJ. reflexivity.
  - destruct (gfs1 !! OpenCoilSolver.J_parent_ s) as [Jp|] eqn:HJ; [|discriminate].
    cbn in H. injection H as <- <- <-.
    exists I, Jp. cbn.
    unfold Vector_div, Vector_scale. rewrite !map_map.
    split_and!; try reflexivity; try assumption.
    intros lf2. unfold Vector_scale in H1.
    rewrite H1. cbn. rewrite HJ. reflexivity.
Qed.

Lemma Vector_assign_length_only c (v w : Vector) :
  length v = length w -> Vector_assign c v = Vector_assign c w.
Proof.
  revert w. induction v as [|x v IH]; intros [|y w] Hlen; try discriminate.
  - reflexivity.
  - cbn. f_equal. apply IH. now injection Hlen.
Qed.

Lemma ClosedCoilSolver_Apply_inv how s time (gfs : GridFunctions) lf s' gfs' lf' :
  ClosedCoilSolver.Apply how s time gfs lf = Some (s', gfs', lf') ->
  exists J_parent,
    gfs' !! ClosedCoilSolver.J_parent_ s = Some J_parent /\
    lf' = Vector_Add 1%float (gf_data J_parent) (Vector_assign 0%float lf) /\
    forall lf2, length lf2 = length lf ->
      ClosedCoilSolver.Apply how s time gfs lf2 = Some (s', gfs', lf').
Proof.
  unfold ClosedCoilSolver.Apply. intros H.
  destruct (ClosedCoilSolver.opencoil_ s !! 0%nat) as [oc0|] eqn:H0; [|discriminate].
  cbn in H.
  destruct (OpenCoilSolver.Apply how oc0 time gfs lf) as [[[oc0' gfs0] lf0]|] eqn:A0;
    [|discriminate].
  cbn in H.
  destruct (ClosedCoilSolver.opencoil_ s !! 1%nat) as [oc1|] eqn:H1; [|discriminate].
  cbn in H.
  destruct (OpenCoilSolver.Apply how oc1 time gfs0 lf0) as [[[oc1' gfs1] lf1]|] eqn:A1;
    [|discriminate].
  cbn in H.
  destruct (gfs1 !! ClosedCoilSolver.J_parent_ s) as [Jp|] eqn:HJ; [|discriminate].
  cbn in H. injection H as <- <- <-.
  destruct (OpenCoilSolver_Apply_inv _ _ _ _ _ _ _ _ A0)
    as (I0 & Jp0 & _ & _ & Hlf0 & _ & _ & Hany0).
  destruct (OpenCoilSolver_Apply_inv _ _ _ _ _ _ _ _ A1)
    as (I1 & Jp1 & _ & _ & Hlf1 & _ & _ & Hany1).
  assert (Hlen : length lf1 = length lf)
    by (rewrite Hlf1, Hlf0, !Vector_Add_length; reflexivity).
  exists Jp. split_and!.
  - exact HJ.
  - f_equal. now apply Vector_assign_length_only.
  - intros lf2 Hlen2. cbn.
    rewrite (Hany0 lf2). cbn. rewrite (Hany1 _). cbn. rewrite HJ. cbn.
    do 3 f_equal. apply Vector_assign_length_only.
    repeat (rewrite Vector_Add_length || rewrite add_scaled_length). congruence.
Qed.

(** What the two coil sources do to the linear form they are applied to,
    whichever way mfem divides.  [OpenCoilSolver::Apply] only adds: the
    result is the form it was given plus the parent current, entry by
    entry.  [ClosedCoilSolver::Apply] sets the form to zero before adding
    the parent current: the result is the parent current alone, the same
    for every form of the same length. *)
Lemma source_Apply_effect_on_linear_form (how : VectorDivision) (time : double)
    (gfs : GridFunctions) (lf : Vector) :
  (forall s s' gfs' lf',
     OpenCoilSolver.Apply how s time gfs lf = Some (s', gfs', lf') ->
     exists J_parent,
       gfs' !! OpenCoilSolver.J_parent_ s = Some J_parent /\
       lf' = Vector_Add 1%float (gf_data J_parent) lf /\
       forall i before,
         lf !! i = Some before ->
         lf' !! i = Some (match gf_data J_parent !! i with
                          | Some j => PrimFloat.add before (PrimFloat.mul 1%float j)
                          | None => before
                          end)) /\
  (forall s s' gfs' lf',
     ClosedCoilSolver.Apply how s time gfs lf = Some (s', gfs', lf') ->
     exists J_parent,
       gfs' !! ClosedCoilSolver.J_parent_ s = Some J_parent /\
       lf' = Vector_Add 1%float (gf_data J_parent) (Vector_assign 0%float lf) /\
       forall lf2, length lf2 = length lf ->
         ClosedCoilSolver.Apply how s time gfs lf2 = Some (s', gfs', lf')).
Proof.
  split.
  - intros s s' gfs' lf' H.
    destruct (OpenCoilSolver_Apply_inv _ _ _ _ _ _ _ _ H)
      as (I & Jp & _ & HJ & Hlf & _).
    exists Jp. split_and!; [exact HJ | exact Hlf |].
    intros i before Hi. rewrite Hlf, Vector_Add_one_lookup, Hi.
    now destruct (gf_data Jp !! i).
  - intros s s' gfs' lf' H. now apply ClosedCoilSolver_Apply_inv.
Qed.

(** The form [OpenCoilSolver::Apply] returns on the sample coil is the form
    it was given plus the parent current. *)
Lemma OpenCoilSolver_Apply_adds_sample :
  exists s s' gfs' lf',
    sample_open by_reciprocal coefs_I = Some s /\
    OpenCoilSolver.Apply by_reciprocal s 0%float gfs_J_Phi form_555
    = Some (s', gfs', lf') /\
    exists J_parent,
      gfs' !! OpenCoilSolver.J_parent_ s = Some J_parent /\
      lf' = Vector_Add 1%float (gf_data J_parent) form_555 /\
      lf' = [279.2%float; 4118%float; 5%float].
Proof.
  destruct (sample_open by_reciprocal coefs_I) as [s|] eqn:Hs;
    [|vm_compute in Hs; discriminate].
  destruct (OpenCoilSolver.Apply by_reciprocal s 0%float gfs_J_Phi form_555)
    as [[[s' gfs'] lf']|] eqn:HA.
  - exists s, s', gfs', lf'. split; [reflexivity|]. split; [exact HA|].
    destruct (proj1 (source_Apply_effect_on_linear_form by_reciprocal 0%float
                       gfs_J_Phi form_555) s s' gfs' lf' HA)
      as (Jp & HJ & Hlf & _).
    exists Jp. split_and!; [exact HJ | exact Hlf |].
    vm_compute in Hs. injection Hs as <-. vm_compute in HA.
    now injection HA as _ _ <-.
  - exfalso. vm_compute in Hs. injection Hs as <-. vm_compute in HA. discriminate.
Qed.

(** C4. Calling [ClosedCoilSolver::Apply] does not preserve what the linear
    form held: whichever way mfem divides, a form holding (5, 5, 5) comes
    back as the parent current (274.2, 4113, 0) alone, the same as a form
    that held nothing, where the claim has it come back with the 5s still
    in it, as [OpenCoilSolver::Apply] leaves them. *)
Theorem ClosedCoilSolver_Apply_discards_form :
  Forall (fun how =>
    exists s,
      sample_closed how coefs_I = Some s /\
      applied_form (ClosedCoilSolver.Apply how s 0%float gfs_J_Phi form_555)
      = Some [274.2%float; 4113%float; 0%float] /\
      applied_form (ClosedCoilSolver.Apply how s 0%float gfs_J_Phi form_000)
      = Some [274.2%float; 4113%float; 0%float])
    [by_quotient; by_reciprocal].
Proof.
  repeat constructor;
    (eexists; split; [vm_compute; reflexivity|]; split; vm_compute; reflexivity).
Qed.

(** ** Scaling the child fields by the current and by the flux *)

(** C9 (as amended). [OpenCoilSolver::Apply] multiplies every entry of [J_]
    (and of [V_] when [V_parent_] is set) by the current [I] and divides it
    by [I] again, with no test of [I]; [SPSCurrent] divides every entry of
    both fields by the absolute value of the flux, with no test of the flux.
    When [I] is zero every entry so treated becomes NaN, and when the flux
    is zero every entry becomes NaN or infinite: a nonzero current (flux) is
    necessary for the fields to come back.  It is not sufficient for them to
    come back exactly: an entry [x] becomes [x * I] divided by [I] in double
    arithmetic.  All of it holds whichever way mfem divides. *)
Theorem coil_fields_scaled_without_guard (how : VectorDivision) :
  (forall s time (gfs : GridFunctions) lf s' gfs' lf',
     OpenCoilSolver.Apply how s time gfs lf = Some (s', gfs', lf') ->
     exists I,
       Eval time (OpenCoilSolver.Itotal_ s) = Some I /\
       OpenCoilSolver.J_ s'
       = map (fun x => divide how (PrimFloat.mul x I) I) (OpenCoilSolver.J_ s) /\
       OpenCoilSolver.V_ s'
       = match OpenCoilSolver.V_parent_ s with
         | Some _ => map (fun x => divide how (PrimFloat.mul x I) I)
                         (OpenCoilSolver.V_ s)
         | None => OpenCoilSolver.V_ s
         end /\
       (is_zero I = true ->
        Forall (fun x => isnan x = true) (OpenCoilSolver.J_ s') /\
        (is_Some (OpenCoilSolver.V_parent_ s) ->
         Forall (fun x => isnan x = true) (OpenCoilSolver.V_ s')))) /\
  (forall be c mesh bcs JV,
     OpenCoilSolver.vector_division be = how ->
     let JV1 := OpenCoilSolver.sps_solve be mesh bcs (fst JV) (snd JV) in
     let flux := OpenCoilSolver.calcFlux be mesh (fst JV1) (OpenCoilSolver.ref_face_ c) in
     OpenCoilSolver.SPSCurrent be c mesh bcs JV
     = (map (fun x => divide how x (fabs flux)) (fst JV1),
        map (fun x => divide how x (fabs flux)) (snd JV1)) /\
     (is_zero flux = true ->
      Forall (fun x => isfinite x = false)
        (fst (OpenCoilSolver.SPSCurrent be c mesh bcs JV)) /\
      Forall (fun x => isfinite x = false)
        (snd (OpenCoilSolver.SPSCurrent be c mesh bcs JV)))).
Proof.
  split.
  - intros s time gfs lf s' gfs' lf' H.
    destruct (OpenCoilSolver_Apply_inv _ _ _ _ _ _ _ _ H)
      as (I & Jp & HI & _ & _ & HJ & HV & _).
    exists I. split_and!; try assumption.
    intros Hzero. split.
    + rewrite HJ. apply List.Forall_forall. intros y Hy.
      apply in_map_iff in Hy as (x & <- & _).
      now apply scale_divide_by_zero_nan.
    + intros [Vp HVp]. rewrite HV, HVp. apply List.Forall_forall. intros y Hy.
      apply in_map_iff in Hy as (x & <- & _).
      now apply scale_divide_by_zero_nan.
  - intros be c mesh bcs JV <- JV1 flux.
    unfold OpenCoilSolver.SPSCurrent, OpenCoilSolver.normalise.
    fold JV1. fold flux. cbn [fst snd]. unfold Vector_div.
    split; [reflexivity|].
    intros Hzero.
    split; apply List.Forall_forall; intros y Hy;
      apply in_map_iff in Hy as (x & <- & _);
      now apply divide_by_abs_zero_not_finite.
Qed.

Lemma coil_fields_scaled_without_guard_witness :
  exists s s' gfs' lf',
    sample_open by_reciprocal coefs_I0 = Some s /\
    OpenCoilSolver.Apply by_reciprocal s 0%float gfs_J_Phi form_000
    = Some (s', gfs', lf') /\
    Forall (fun x => isnan x = true) (OpenCoilSolver.J_ s') /\
    Forall (fun x => isnan x = true) (OpenCoilSolver.V_ s').
Proof.
  destruct (sample_open by_reciprocal coefs_I0) as [s|] eqn:Hs;
    [|vm_compute in Hs; discriminate].
  destruct (OpenCoilSolver.Apply by_reciprocal s 0%float gfs_J_Phi form_000)
    as [[[s' gfs'] lf']|] eqn:HA.
  - exists s, s', gfs', lf'. split; [reflexivity|]. split; [exact HA|].
    destruct (proj1 (coil_fields_scaled_without_guard by_reciprocal)
                s 0%float gfs_J_Phi form_000 s' gfs' lf' HA)
      as (I & HI & _ & _ & Hzero).
    assert (HI0 : I = 0%float).
    { vm_compute in Hs. injection Hs as <-. vm_compute in HI. now injection HI. }
    subst I. destruct (Hzero eq_refl) as [HJ HV]. split; [exact HJ|].
    apply HV. vm_compute in Hs. injection Hs as <-. eexists. reflexivity.
  - exfalso. vm_compute in Hs. injection Hs as <-. vm_compute in HA. discriminate.
Defined.

(** C9 as stated fails: the current 2742 is nonzero and [Apply] does not
    put [J_] back, whichever way mfem divides: the entry 0.1 comes back as
    0.09999999999999999. *)
Lemma Apply_nonzero_current_does_not_restore :
  Forall (fun how =>
    exists s s' gfs' lf',
      sample_open how coefs_I = Some s /\
      Eval 0%float (OpenCoilSolver.Itotal_ s) = Some 2742%float /\
      is_zero 2742%float = false /\
      OpenCoilSolver.Apply how s 0%float gfs_J_Phi form_000 = Some (s', gfs', lf') /\
      OpenCoilSolver.J_ s = [0.1%float; 1.5%float] /\
      OpenCoilSolver.J_ s' = [0.09999999999999999%float; 1.5%float] /\
      PrimFloat.eqb 0.09999999999999999%float 0.1%float = false /\
      OpenCoilSolver.J_ s' <> OpenCoilSolver.J_ s)
    [by_quotient; by_reciprocal].
Proof.
  repeat constructor;
    (do 4 eexists;
     split; [vm_compute; reflexivity|];
     split; [reflexivity|]; split; [reflexivity|];
     split; [vm_compute; reflexivity|];
     split; [reflexivity|]; split; [reflexivity|]; split; [reflexivity|];
     cbn; intros Heq;
     apply (f_equal (fun v => match v with
                              | x :: _ => PrimFloat.eqb x 0.1%float
                              | [] => true
                              end)) in Heq;
     vm_compute in Heq; discriminate).
Qed.

(** ** Re-assembly by the equation system *)

Lemma lookup_list_to_map_fmap {K V} `{Countable K} (f : K -> V) (l : list K) (k : K) :
  k ∈ l -> (list_to_map ((fun x => (x, f x)) <$> l) : gmap K V) !! k = Some (f k).
Proof.
  induction l as [|x l IH]; intros Hin.
  - inversion Hin.
  - cbn. destruct (decide (x = k)) as [->|Hne].
    + apply lookup_insert_eq.
    + rewrite lookup_insert_ne by exact Hne. apply IH.
      apply elem_of_cons in Hin as [->|Hin]; [congruence | exact Hin].
Qed.

Lemma list_to_map_fmap_ext {K V} `{Countable K} (f g : K -> V) (l : list K) :
  (forall k, k ∈ l -> f k = g k) ->
  (list_to_map ((fun x => (x, f x)) <$> l) : gmap K V)
  = list_to_map ((fun x => (x, g x)) <$> l).
Proof.
  intros Hfg. f_equal. apply list_fmap_ext.
  intros i k Hk. rewrite (Hfg k); [reflexivity|].
  eapply list_elem_of_lookup_2. exact Hk.
Qed.

Lemma build_bilinear_form_matrix es time v :
  exists m, bf_matrix (EquationSystem.build_bilinear_form es time v) = Some m.
Proof.
  unfold EquationSystem.build_bilinear_form.
  destruct (EquationSystem.blfs es !! v ≫= bf_matrix) as [m|]; cbn; eauto.
Qed.

(** The forms a second [UpdateSystem] finds are those the first left: every
    bilinear form is valid and is rebuilt as the same form. *)
Lemma build_bilinear_form_again es time forms mixed linear v :
  v ∈ EquationSystem.trial_var_names es ->
  EquationSystem.build_bilinear_form
    (EquationSystem.with_forms es (EquationSystem.dt es)
       (list_to_map ((fun v => (v, EquationSystem.build_bilinear_form es time v))
                       <$> EquationSystem.trial_var_names es))
       mixed linear forms) time v
  = EquationSystem.build_bilinear_form es time v.
Proof.
  intros Hv.
  unfold EquationSystem.build_bilinear_form at 1.
  cbn [EquationSystem.with_forms
       EquationSystem.blfs EquationSystem.kernels EquationSystem.dt].
  rewrite (lookup_list_to_map_fmap
             (EquationSystem.build_bilinear_form es time)) by exact Hv.
  cbn [mbind option_bind].
  unfold EquationSystem.build_bilinear_form.
  destruct (EquationSystem.blfs es !! v ≫= bf_matrix) as [m|]; reflexivity.
Qed.

(** The linear forms read the kernels and the sizes of the system, not the
    forms an earlier assembly left in it. *)
Lemma build_linear_forms_ext es es' bc time vars :
  EquationSystem.kernels es' = EquationSystem.kernels es ->
  EquationSystem.var_size es' = EquationSystem.var_size es ->
  forall sources gfs,
    EquationSystem.build_linear_forms es' bc time vars sources gfs
    = EquationSystem.build_linear_forms es bc time vars sources gfs.
Proof.
  intros Hk Hs.
  induction vars as [|v rest IH]; intros sources gfs; [reflexivity|].
  cbn [EquationSystem.build_linear_forms].
  unfold EquationSystem.build_linear_form, EquationSystem.kernel_linear_form.
  rewrite Hk, Hs.
  destruct (EquationSystem.apply_sources _ _ _ _ _) as [[[sources1 gfs1] lf]|];
    [|reflexivity].
  cbn. now rewrite IH.
Qed.

(** What a first assembly leaves in the system does not reach the second:
    re-assembled with any sources and grid functions, the system it left
    gives what the system it started from gives with them. *)
Lemma UpdateSystem_forgets bc time es sources gfs es1 sources1 gfs1 :
  EquationSystem.UpdateSystem bc time es sources gfs = Some (es1, sources1, gfs1) ->
  forall sources' gfs',
    EquationSystem.UpdateSystem bc time es1 sources' gfs'
    = EquationSystem.UpdateSystem bc time es sources' gfs'.
Proof.
  unfold EquationSystem.UpdateSystem. intros H sources' gfs'.
  destruct (EquationSystem.build_linear_forms es bc time _ sources gfs)
    as [[[forms srcs] g]|]; [|discriminate].
  cbn in H. injection H as <- <- <-.
  cbn [EquationSystem.with_forms EquationSystem.trial_var_names].
  rewrite (build_linear_forms_ext es) by reflexivity.
  destruct (EquationSystem.build_linear_forms es bc time _ sources' gfs')
    as [[[forms' srcs'] g']|]; [|reflexivity].
  cbn [mbind option_bind].
  cbn [EquationSystem.with_forms EquationSystem.trial_var_names
       EquationSystem.kernels EquationSystem.var_size EquationSystem.dt
       EquationSystem.eliminated].
  rewrite (list_to_map_fmap_ext
             (EquationSystem.build_bilinear_form
                (EquationSystem.with_forms es (EquationSystem.dt es) _ _ _ _) time)
             (EquationSystem.build_bilinear_form es time))
    by (intros v Hv; now apply build_bilinear_form_again).
  reflexivity.
Qed.

(** A source that is not aimed at a variable is not called for it. *)
Lemma apply_sources_not_aimed time v sources gfs lf :
  (forall src, src ∈ sources -> EquationSystem.source_target src <> v) ->
  EquationSystem.apply_sources time v sources gfs lf = Some (sources, gfs, lf).
Proof.
  induction sources as [|src rest IH]; intros Hno; [reflexivity|].
  cbn [EquationSystem.apply_sources].
  destruct (decide (EquationSystem.source_target src = v)) as [Heq|_].
  - exfalso. apply (Hno src); [apply elem_of_cons; now left | exact Heq].
  - cbn. rewrite IH; [reflexivity|].
    intros src' Hin. apply Hno. apply elem_of_cons. now right.
Qed.

Lemma build_linear_forms_not_aimed es bc time vars sources gfs :
  (forall src v, src ∈ sources -> v ∈ vars -> EquationSystem.source_target src <> v) ->
  exists forms,
    EquationSystem.build_linear_forms es bc time vars sources gfs
    = Some (forms, sources, gfs).
Proof.
  induction vars as [|v rest IH]; intros Hno; [eexists; reflexivity|].
  cbn [EquationSystem.build_linear_forms].
  unfold EquationSystem.build_linear_form.
  rewrite apply_sources_not_aimed
    by (intros src Hin; apply Hno; [exact Hin | apply elem_of_cons; now left]).
  cbn. destruct IH as [forms ->].
  - intros src v' Hin Hv'. apply Hno; [exact Hin | apply elem_of_cons; now right].
  - eexists. reflexivity.
Qed.

(** Integrators given to a form one by one are its integrators, once each
    and in that order. *)
Lemma bf_integrators_foldl (l : list Integrator) : forall form,
  bf_integrators (foldl (fun form i => EquationSystem.Apply_integrator i form) form l)
  = bf_integrators form ++ l.
Proof.
  induction l as [|i rest IH]; intros form; cbn [foldl].
  - now rewrite app_nil_r.
  - rewrite IH. cbn. now rewrite <- app_assoc.
Qed.

Lemma build_bilinear_form_integrators es time v :
  bf_integrators (EquationSystem.build_bilinear_form es time v)
  = EquationSystem.bilinear_integrators (EquationSystem.kernels es) v.
Proof.
  unfold EquationSystem.build_bilinear_form.
  destruct (EquationSystem.blfs es !! v ≫= bf_matrix) as [m|]; cbn;
    now rewrite bf_integrators_foldl.
Qed.

Lemma lookup_list_to_map_fmap_inv {K V} `{Countable K} (f : K -> V) (l : list K)
    (k : K) (x : V) :
  (list_to_map ((fun x => (x, f x)) <$> l) : gmap K V) !! k = Some x -> x = f k.
Proof.
  induction l as [|y l IH]; cbn.
  - rewrite lookup_empty. discriminate.
  - destruct (decide (y = k)) as [->|Hne].
    + rewrite lookup_insert_eq. now intros [= <-].
    + rewrite lookup_insert_ne by exact Hne. exact IH.
Qed.

(** C7 (as amended). Of a first [UpdateSystem] nothing is left in the
    equation system that a second one would add to: re-assembled with any
    sources and grid functions, the system the first left gives what the
    system it started from gives with them.  So a second invocation leaves
    the bilinear and the mixed forms of the first, each with the integrators
    of its kernels once and in registration order, and the same block
    operator and block unknown; only the linear forms can differ, through
    the sources, which are objects whose [Apply] can rewrite their fields
    and the grid functions.  When the first invocation left the sources and
    the grid functions as it found them, as it does when no source is aimed
    at a trial variable, the second leaves everything as the first did, the
    right-hand side included. *)
Theorem UpdateSystem_idempotent_up_to_sources (bc : EquationSystem.BoundaryConditions)
    (time : double) (es : EquationSystem.t)
    (sources : list EquationSystem.Source) (gfs : GridFunctions)
    (es1 : EquationSystem.t) (sources1 : list EquationSystem.Source)
    (gfs1 : GridFunctions) :
  EquationSystem.UpdateSystem bc time es sources gfs = Some (es1, sources1, gfs1) ->
  (forall sources' gfs',
     EquationSystem.UpdateSystem bc time es1 sources' gfs'
     = EquationSystem.UpdateSystem bc time es sources' gfs') /\
  (forall es2 sources2 gfs2,
     EquationSystem.UpdateSystem bc time es1 sources1 gfs1 = Some (es2, sources2, gfs2) ->
     EquationSystem.blfs es2 = EquationSystem.blfs es1 /\
     EquationSystem.mblfs es2 = EquationSystem.mblfs es1 /\
     es2 = EquationSystem.with_forms es1 (EquationSystem.dt es1)
             (EquationSystem.blfs es1) (EquationSystem.mblfs es1)
             (EquationSystem.lfs es2) (EquationSystem.eliminated es1) /\
     (forall v form,
        EquationSystem.blfs es2 !! v = Some form ->
        bf_integrators form
        = EquationSystem.bilinear_integrators (EquationSystem.kernels es) v) /\
     (forall pair form,
        EquationSystem.mblfs es2 !! pair = Some form ->
        bf_integrators form
        = EquationSystem.mixed_integrators (EquationSystem.kernels es)
            (fst pair) (snd pair)) /\
     (forall eliminate_rhs tr,
        formed_operator (EquationSystem.FormLinearSystem bc time eliminate_rhs es2 tr)
        = formed_operator (EquationSystem.FormLinearSystem bc time eliminate_rhs es1 tr))) /\
  (sources1 = sources -> gfs1 = gfs ->
   EquationSystem.UpdateSystem bc time es1 sources1 gfs1 = Some (es1, sources1, gfs1)) /\
  ((forall src v, src ∈ sources -> v ∈ EquationSystem.trial_var_names es ->
      EquationSystem.source_target src <> v) ->
   sources1 = sources /\ gfs1 = gfs).
Proof.
  intros H1. pose proof (UpdateSystem_forgets _ _ _ _ _ _ _ _ H1) as Hforget.
  split_and!.
  - exact Hforget.
  - intros es2 sources2 gfs2 H2. rewrite Hforget in H2.
    unfold EquationSystem.UpdateSystem in H1, H2.
    destruct (EquationSystem.build_linear_forms es bc time _ sources gfs)
      as [[[forms srcs] g]|]; [|discriminate].
    destruct (EquationSystem.build_linear_forms es bc time _ sources1 gfs1)
      as [[[forms' srcs'] g']|]; [|discriminate].
    cbn in H1, H2. injection H1 as <- <- <-. injection H2 as <- <- <-.
    cbn [EquationSystem.with_forms EquationSystem.blfs EquationSystem.mblfs
         EquationSystem.lfs EquationSystem.dt EquationSystem.eliminated
         EquationSystem.kernels].
    split_and!; try reflexivity.
    + intros v form Hv. apply lookup_list_to_map_fmap_inv in Hv as ->.
      apply build_bilinear_form_integrators.
    + intros pair form Hp. apply lookup_list_to_map_fmap_inv in Hp as ->.
      unfold EquationSystem.build_mixed_form. cbn.
      now rewrite bf_integrators_foldl.
    + intros eliminate_rhs tr.
      unfold formed_operator, EquationSystem.FormLinearSystem,
        EquationSystem.eliminate_variable.
      cbn [EquationSystem.with_forms EquationSystem.trial_var_names
           EquationSystem.var_size].
      destruct (mapM _ (EquationSystem.trial_var_names es)) as [el|]; reflexivity.
  - intros -> ->. now rewrite Hforget.
  - intros Hno. unfold EquationSystem.UpdateSystem in H1.
    destruct (build_linear_forms_not_aimed es bc time
                (EquationSystem.trial_var_names es) sources gfs Hno) as [forms Hf].
    rewrite Hf in H1. cbn in H1. injection H1 as _ <- <-. auto.
Qed.

(** The sample system with the open coil as the source of [u], the current
    being 2: the scaling by 2 and back is exact, so an assembly leaves the
    coil as it found it, and after the first assembly the grid functions
    too; the third assembly leaves everything as the second did. *)
Lemma UpdateSystem_idempotent_up_to_sources_witness :
  EquationSystem.UpdateSystem bc_pu 0%float
    (fst (fst settled_once)) (snd (fst settled_once)) (snd settled_once)
  = Some (fst (fst settled_twice), snd (fst settled_once), snd settled_once) /\
  EquationSystem.UpdateSystem bc_pu 0%float
    (fst (fst settled_twice)) (snd (fst settled_once)) (snd settled_once)
  = Some (fst (fst settled_twice), snd (fst settled_once), snd settled_once) /\
  EquationSystem.lfs (fst (fst settled_twice)) !! "u"
  = Some [0.2%float; 3%float; 0%float].
Proof.
  assert (H : EquationSystem.UpdateSystem bc_pu 0%float
                (fst (fst settled_once)) (snd (fst settled_once)) (snd settled_once)
              = Some (fst (fst settled_twice), snd (fst settled_once),
                      snd settled_once))
    by (vm_compute; reflexivity).
  split_and!.
  - exact H.
  - exact (proj1 (proj2 (proj2 (UpdateSystem_idempotent_up_to_sources
                                  bc_pu 0%float _ _ _ _ _ _ H)))
             eq_refl eq_refl).
  - vm_compute. reflexivity.
Defined.

(** C7 as stated fails: with the sample open coil as the source of [u],
    the current 9 and mfem dividing a vector by the reciprocal of the
    divisor, the first assembly leaves the right-hand side (0.9, 13.5, 0)
    and the coil with the current entry 0.1 turned into
    0.09999999999999999; the second, invoked at once with the same time,
    boundary conditions and sources, leaves (0.8999999999999999, 13.5, 0). *)
Lemma UpdateSystem_twice_differs_with_coil_source :
  exists s0 es1 s1 gfs1 es2 s2 gfs2,
    sample_open by_reciprocal coefs_I9 = Some s0 /\
    EquationSystem.UpdateSystem bc_pu 0%float es_pu
      [EquationSystem.OpenCoilSource by_reciprocal "u" s0] gfs_J_Phi
    = Some (es1, [EquationSystem.OpenCoilSource by_reciprocal "u" s1], gfs1) /\
    EquationSystem.UpdateSystem bc_pu 0%float es1
      [EquationSystem.OpenCoilSource by_reciprocal "u" s1] gfs1
    = Some (es2, [EquationSystem.OpenCoilSource by_reciprocal "u" s2], gfs2) /\
    OpenCoilSolver.J_ s0 = [0.1%float; 1.5%float] /\
    OpenCoilSolver.J_ s1 = [0.09999999999999999%float; 1.5%float] /\
    EquationSystem.lfs es1 !! "u" = Some [0.9%float; 13.5%float; 0%float] /\
    EquationSystem.lfs es2 !! "u"
    = Some [0.8999999999999999%float; 13.5%float; 0%float] /\
    PrimFloat.eqb 0.8999999999999999%float 0.9%float = false /\
    EquationSystem.lfs es2 <> EquationSystem.lfs es1 /\
    EquationSystem.blfs es2 = EquationSystem.blfs es1.
Proof.
  do 7 eexists.
  split; [vm_compute; reflexivity|].
  split; [vm_compute; reflexivity|].
  split; [vm_compute; reflexivity|].
  split; [reflexivity|]. split; [reflexivity|].
  split; [vm_compute; reflexivity|]. split; [vm_compute; reflexivity|].
  split; [reflexivity|].
  split; [|vm_compute; reflexivity].
  intros Heq.
  apply (f_equal (fun m : gmap string Vector =>
                    match m !! "u" with
                    | Some (x :: _) => PrimFloat.eqb x 0.9%float
                    | _ => true
                    end)) in Heq.
  vm_compute in Heq. discriminate.
Qed.

(** Without the clearing, a kernel applied again leaves its term twice. *)
Example kernel_applied_twice_duplicates fes Q :
  bf_integrators
    (EquationSystem.Apply_integrator (MixedVectorGradientIntegrator Q)
       (EquationSystem.Apply_integrator (MixedVectorGradientIntegrator Q)
          (new_ParBilinearForm fes)))
  = [MixedVectorGradientIntegrator Q; MixedVectorGradientIntegrator Q].
Proof. reflexivity. Qed.

(** ** Recovering the fields from the block solution *)

Lemma recover_blocks_lookup (el : list (string * (list nat * Vector))) :
  forall (x : Vector) k v ess field,
    el !! k = Some (v, (ess, field)) ->
    EquationSystem.recover_blocks el x !! k
    = Some (v, EquationSystem.recover_field ess field
                 (take (length field) (drop (block_start el k) x))).
Proof.
  induction el as [|[v0 [ess0 field0]] rest IH]; intros x k v ess field Hk.
  - destruct k; discriminate.
  - destruct k as [|k]; cbn in Hk.
    + injection Hk as -> -> ->. reflexivity.
    + cbn [EquationSystem.recover_blocks]. cbn [lookup list_lookup].
      change ((EquationSystem.recover_blocks rest (drop (length field0) x)) !! k
              = Some (v, EquationSystem.recover_field ess field
                           (take (length field)
                              (drop (length field0 + block_start rest k) x)))).
      rewrite (IH _ _ _ _ _ Hk), drop_drop. reflexivity.
Qed.

Lemma recover_field_lookup ess (field solved : Vector) i imposed :
  field !! i = Some imposed ->
  EquationSystem.recover_field ess field solved !! i
  = Some (if decide (i ∈ ess) then imposed else default imposed (solved !! i)).
Proof.
  intros Hi. unfold EquationSystem.recover_field.
  rewrite list_lookup_imap, Hi. reflexivity.
Qed.

Lemma eliminate_variable_inv es bc time v entry :
  EquationSystem.eliminate_variable es bc time v = Some entry ->
  exists ess field,
    entry = (v, (ess, field)) /\
    EquationSystem.ApplyEssential bc v time
      (repeat 0%float (EquationSystem.var_size es v)) = Some (ess, field) /\
    length field = EquationSystem.var_size es v /\
    EquationSystem.var_size es v <> 0%nat.
Proof.
  unfold EquationSystem.eliminate_variable. intros H.
  destruct (decide (EquationSystem.var_size es v = 0%nat)) as [|Hnz]; [discriminate|].
  destruct (EquationSystem.ApplyEssential bc v time _) as [[ess field]|] eqn:HA;
    [|discriminate].
  cbn in H.
  destruct (decide (length field = EquationSystem.var_size es v)) as [Hlen|];
    [|discriminate].
  injection H as <-. exists ess, field. auto.
Qed.

(** The recorded boundary fields have the sizes of the variables, so blocks
    start at the block offsets. *)
Lemma block_start_offsets es bc time :
  forall names el start k,
    Forall2 (fun v entry => EquationSystem.eliminate_variable es bc time v = Some entry)
      names el ->
    (k <= length names)%nat ->
    EquationSystem.block_offsets_from start (EquationSystem.var_size es <$> names) !! k
    = Some (start + block_start el k)%nat.
Proof.
  intros names el start k HF. revert start k.
  induction HF as [|v entry names el Hv HF IH]; intros start k Hk.
  - destruct k; [|cbn in Hk; lia]. cbn. f_equal. lia.
  - destruct k as [|k]; cbn.
    + f_equal. unfold block_start. cbn. lia.
    + destruct (eliminate_variable_inv _ _ _ _ _ Hv)
        as (ess & field & -> & _ & Hlen & _).
      cbn in Hk. rewrite IH by lia. f_equal.
      unfold block_start. cbn. rewrite Hlen. lia.
Qed.

(** C8. After [FormLinearSystem], [RecoverSolution] of any block vector,
    whichever solver produced it, succeeds and returns one field per
    variable in block order; in the field of the [k]-th variable, an
    essential degree of freedom holds the value the boundary-condition
    collaborator imposed and every other degree of freedom holds the value
    of the block vector at the block's offset plus its index. *)
Theorem RecoverSolution_round_trip (bc : EquationSystem.BoundaryConditions)
    (time : double) (eliminate_rhs : HypreParMatrix -> Vector -> Vector -> Vector)
    (es es' : EquationSystem.t) (A : HypreParMatrix) (x0 rhs solved : Vector)
    (tr tr' : list Run.Event) :
  EquationSystem.FormLinearSystem bc time eliminate_rhs es tr
  = (Run.Return (es', A, x0, rhs), tr') ->
  exists fields,
    EquationSystem.RecoverSolution es' solved tr' = (Run.Return fields, tr') /\
    fst <$> fields = EquationSystem.trial_var_names es /\
    forall k v, EquationSystem.trial_var_names es !! k = Some v ->
      exists ess boundary_field out offset,
        EquationSystem.ApplyEssential bc v time
          (repeat 0%float (EquationSystem.var_size es v))
        = Some (ess, boundary_field) /\
        fields !! k = Some (v, out) /\
        length out = EquationSystem.var_size es v /\
        EquationSystem.block_offsets es !! k = Some offset /\
        forall i imposed value,
          boundary_field !! i = Some imposed ->
          solved !! (offset + i)%nat = Some value ->
          out !! i = Some (if decide (i ∈ ess) then imposed else value).
Proof.
  unfold EquationSystem.FormLinearSystem. intros H.
  destruct (mapM (EquationSystem.eliminate_variable es bc time)
              (EquationSystem.trial_var_names es)) as [el|] eqn:Hel;
    [|discriminate].
  cbn in H. injection H as <- <- <- <- <-.
  apply mapM_Some in Hel.
  exists (EquationSystem.recover_blocks el solved). split_and!.
  - reflexivity.
  - clear -Hel. revert solved.
    induction Hel as [|v entry names el Hv HF IH]; intros solved; [reflexivity|].
    destruct (eliminate_variable_inv _ _ _ _ _ Hv) as (ess & field & -> & _).
    cbn. f_equal. apply IH.
  - intros k v Hk.
    destruct (Forall2_lookup_l _ _ _ _ _ Hel Hk) as (entry & Hentry & Hv).
    destruct (eliminate_variable_inv _ _ _ _ _ Hv)
      as (ess & field & -> & HA & Hlen & _).
    exists ess, field,
      (EquationSystem.recover_field ess field
         (take (length field) (drop (block_start el k) solved))),
      (block_start el k).
    split_and!.
    + exact HA.
    + now apply recover_blocks_lookup.
    + unfold EquationSystem.recover_field. now rewrite length_imap.
    + unfold EquationSystem.block_offsets.
      rewrite (block_start_offsets es bc time _ el 0%nat k Hel).
      * reflexivity.
      * apply lookup_lt_Some in Hk. lia.
    + intros i imposed value Hi Hval.
      rewrite (recover_field_lookup _ _ _ _ _ Hi).
      rewrite lookup_take_lt by (apply lookup_lt_Some in Hi; exact Hi).
      rewrite lookup_drop, Hval. reflexivity.
Qed.

Lemma RecoverSolution_round_trip_witness :
  exists fields,
    EquationSystem.RecoverSolution es_pu_formed solved_12345 [] = (Run.Return fields, []) /\
    fst <$> fields = EquationSystem.trial_var_names es_pu_assembled /\
    forall k v, EquationSystem.trial_var_names es_pu_assembled !! k = Some v ->
      exists ess boundary_field out offset,
        EquationSystem.ApplyEssential bc_pu v 0%float
          (repeat 0%float (EquationSystem.var_size es_pu_assembled v))
        = Some (ess, boundary_field) /\
        fields !! k = Some (v, out) /\
        length out = EquationSystem.var_size es_pu_assembled v /\
        EquationSystem.block_offsets es_pu_assembled !! k = Some offset /\
        forall i imposed value,
          boundary_field !! i = Some imposed ->
          solved_12345 !! (offset + i)%nat = Some value ->
          out !! i = Some (if decide (i ∈ ess) then imposed else value).
Proof.
  eapply (RecoverSolution_round_trip bc_pu 0%float keep_rhs
            es_pu_assembled es_pu_formed _ _ _ solved_12345 [] []).
  reflexivity.
Defined.

(** The fields recovered from the block vector (1, 2, 3, 4, 5): the imposed
    7, 8 and 9 at the essential degrees of freedom, the solved 2 and 3
    elsewhere. *)
Example RecoverSolution_sample :
  EquationSystem.RecoverSolution es_pu_formed solved_12345 []
  = (Run.Return [("p", [7%float; 2%float]); ("u", [3%float; 8%float; 9%float])], []).
Proof. vm_compute. reflexivity. Qed.

Example UpdateSystem_sample_forms :
  bf_integrators <$> (EquationSystem.blfs es_pu_assembled !! "u")
  = Some [VectorFEMassIntegrator sigma; CurlCurlIntegrator dt_nu] /\
  (fun es => bf_integrators <$> (EquationSystem.blfs es !! "u"))
    <$> assembled (EquationSystem.UpdateSystem bc_pu 0%float es_pu_assembled [] ∅)
  = Some (Some [VectorFEMassIntegrator sigma; CurlCurlIntegrator dt_nu]).
Proof. split; vm_compute; reflexivity. Qed.

(** ** One implicit step of [AVSolver] *)

(** What one [ImplicitSolve] leaves in the operator and in the trace: it
    always returns; each solver pointer keeps its object or, if null, takes
    a new one; [a1] is built when absent or when the time step moved, and
    kept otherwise; [a0], [m1] and [curlCurl] are never written. *)
Lemma AVSolver_ImplicitSolve_inv be s dt X dX_dt tr :
  exists s' X' dX_dt',
    AVSolver.ImplicitSolve be s dt X dX_dt tr
    = (Run.Return (s', X', dX_dt'), tr ++ AV_events s dt) /\
    let n0 := AVSolver.next_id s in
    let n1 := after (AVSolver.amg_a0 s) n0 in
    let n2 := after (AVSolver.pcg_a0 s) n1 in
    let n3 := after (AVSolver.ams_a1 s) n2 in
    let amg := held (AVSolver.amg_a0 s) (AVSolver.new_preconditioner "HypreBoomerAMG" n0) in
    let ams := held (AVSolver.ams_a1 s) (AVSolver.new_preconditioner "HypreAMS" n2) in
    AVSolver.amg_a0 s' = Some amg /\
    AVSolver.pcg_a0 s'
    = Some (held (AVSolver.pcg_a0 s) (AVSolver.new_pcg n1 1.0e-9%float (Some amg))) /\
    AVSolver.ams_a1 s' = Some ams /\
    AVSolver.pcg_a1 s'
    = Some (held (AVSolver.pcg_a1 s) (AVSolver.new_pcg n3 1.0e-16%float (Some ams))) /\
    AVSolver.next_id s' = after (AVSolver.pcg_a1 s) n3 /\
    AVSolver.a1 s'
    = (if AVSolver.must_build_A1 s dt
       then Some (AVSolver.buildA1 (AVSolver.HCurlFESpace_ s) (AVSolver.betaCoef s)
                    (AVSolver.dtAlphaCoef s) dt (AVSolver.time s))
       else AVSolver.a1 s) /\
    AVSolver.dt_A1 s' = (if AVSolver.must_build_A1 s dt then dt else AVSolver.dt_A1 s) /\
    AVSolver.dtCoef s' = dt /\
    AVSolver.a0 s' = AVSolver.a0 s /\
    AVSolver.m1 s' = AVSolver.m1 s /\
    AVSolver.curlCurl s' = AVSolver.curlCurl s.
Proof.
  unfold AVSolver.ImplicitSolve, AV_events, AVSolver.ensure.
  destruct (AVSolver.applyEssentialBCs be AVSolver.p_name _ _) as [ess0 Phi].
  destruct (AVSolver.FormLinearSystem be (AVSolver.a0 s) _ _ _) as [X0 B0].
  destruct (AVSolver.applyEssentialBCs be AVSolver.u_name _ _) as [ess1 Jgf].
  unfold AVSolver.must_build_A1.
  destruct (AVSolver.amg_a0 s) as [amg|], (AVSolver.pcg_a0 s) as [pcg0|],
           (AVSolver.ams_a1 s) as [ams|], (AVSolver.pcg_a1 s) as [pcg1|],
           (AVSolver.a1 s) as [a1|];
    try destruct (AVSolver.dt_moved dt (AVSolver.dt_A1 s));
    unfold mbind, M_bind, Run.bind, mret, M_ret, Run.ret, Run.call, Run.emit;
    cbn;
    match goal with
    | |- context [AVSolver.FormLinearSystem be ?a ?e ?x ?b] =>
        destruct (AVSolver.FormLinearSystem be a e x b) as [X1 B1]
    end;
    cbn; rewrite <- ?app_assoc; cbn;
    do 3 eexists; (split; [reflexivity|]); cbn; repeat split; reflexivity.
Qed.

Lemma must_build_A1_iff s dt :
  AVSolver.must_build_A1 s dt = true <->
  AVSolver.a1 s = None \/ AVSolver.dt_moved dt (AVSolver.dt_A1 s) = true.
Proof.
  unfold AVSolver.must_build_A1. destruct (AVSolver.a1 s); split; intros H; auto.
  - destruct H as [H|H]; [discriminate | exact H].
Qed.

Lemma buildA1_in_events s dt :
  In (Run.Call "buildA1") (AV_events s dt) <-> AVSolver.must_build_A1 s dt = true.
Proof.
  unfold AV_events, allocation.
  destruct (AVSolver.amg_a0 s), (AVSolver.pcg_a0 s), (AVSolver.ams_a1 s),
           (AVSolver.pcg_a1 s), (AVSolver.must_build_A1 s dt); cbn;
    split; intros H; try discriminate; try tauto;
    repeat (destruct H as [H|H]; try discriminate H); try contradiction.
Qed.

(** With its four solver pointers set, a sequence of steps allocates
    nothing and ends with the same four objects. *)
Lemma AVSolver_run_keeps_solvers be dts :
  forall s X dX_dt tr,
    is_Some (AVSolver.amg_a0 s) -> is_Some (AVSolver.pcg_a0 s) ->
    is_Some (AVSolver.ams_a1 s) -> is_Some (AVSolver.pcg_a1 s) ->
    exists s' X' dX_dt' tr',
      AVSolver.run be s dts X dX_dt tr = (Run.Return (s', X', dX_dt'), tr') /\
      AVSolver.amg_a0 s' = AVSolver.amg_a0 s /\
      AVSolver.pcg_a0 s' = AVSolver.pcg_a0 s /\
      AVSolver.ams_a1 s' = AVSolver.ams_a1 s /\
      AVSolver.pcg_a1 s' = AVSolver.pcg_a1 s /\
      AVSolver.next_id s' = AVSolver.next_id s.
Proof.
  induction dts as [|dt rest IH]; intros s X dX_dt tr Hamg Hpcg0 Hams Hpcg1.
  - do 4 eexists. split; [reflexivity|]. auto.
  - destruct (AVSolver_ImplicitSolve_inv be s dt X dX_dt tr)
      as (s1 & X1 & dX1 & Hrun & Hamg1 & Hpcg01 & Hams1 & Hpcg11 & Hid & _).
    destruct Hamg as [amg Eamg], Hpcg0 as [pcg0 Epcg0],
             Hams as [ams Eams], Hpcg1 as [pcg1 Epcg1].
    rewrite Eamg, Epcg0, Eams, Epcg1 in *. cbn in *.
    destruct (IH s1 X1 dX1 (tr ++ AV_events s dt))
      as (s' & X' & dX' & tr' & Hrest & H1 & H2 & H3 & H4 & H5);
      try (eexists; eassumption).
    exists s', X', dX', tr'. split.
    + cbn [AVSolver.run]. unfold mbind, M_bind, Run.bind. rewrite Hrun. exact Hrest.
    + rewrite H1, H2, H3, H4, H5. auto.
Qed.

(** ** One implicit step of [HCurlSolver] and of [HCurlOperator] *)

Lemma HCurlSolver_ImplicitSolve_inv {W} (ops : System.Ops W) (Mult : System.Mult_fn)
    (s : HCurlSolver.t) dt X dX_dt tr s' dX_dt' tr' :
  HCurlSolver.ImplicitSolve ops Mult s dt X dX_dt tr = (Run.Return (s', dX_dt'), tr') ->
  HCurlSolver.a1_solver s'
  = Some (held (HCurlSolver.a1_solver s)
            (System.new_DefaultHCurlPCGSolver (HCurlSolver.solver_options s)
               (HCurlSolver.next_id s))) /\
  HCurlSolver.next_id s' = after (HCurlSolver.a1_solver s) (HCurlSolver.next_id s).
Proof.
  unfold HCurlSolver.ImplicitSolve.
  unfold mbind, M_bind, Run.bind, mret, M_ret, Run.ret, Run.call, Run.emit. cbn.
  destruct (System.update ops _ _ _) as [[wf0|msg] tr0]; [|discriminate].
  destruct (System.FormLinearSystem ops _ _ _) as [[[[[wf A1] X1] B1]|msg] tr1];
    [|discriminate].
  destruct (HCurlSolver.a1_solver s) as [o|]; cbn;
    destruct (System.RecoverFEMSolution ops _ _ _ _) as [[dX|msg] tr2];
    try discriminate; intros H; injection H as <- <- <-; cbn; auto.
Qed.

Lemma HCurlOperator_ImplicitSolve_inv {E} (ops : System.Ops E) (Mult : System.Mult_fn)
    (s : HCurlOperator.t) dt X dX_dt tr s' dX_dt' tr' :
  HCurlOperator.ImplicitSolve ops Mult s dt X dX_dt tr = (Run.Return (s', dX_dt'), tr') ->
  HCurlOperator.a1_solver s'
  = Some (System.new_DefaultHCurlPCGSolver (HCurlOperator.solver_options s)
            (HCurlOperator.next_id s)) /\
  HCurlOperator.next_id s' = S (HCurlOperator.next_id s) /\
  HCurlOperator.solver_options s' = HCurlOperator.solver_options s.
Proof.
  unfold HCurlOperator.ImplicitSolve.
  unfold mbind, M_bind, Run.bind, mret, M_ret, Run.ret, Run.call, Run.emit. cbn.
  destruct (System.update ops _ _ _) as [[es0|msg] tr0]; [|discriminate].
  destruct (System.FormLinearSystem ops _ _ _) as [[[[[es A] trueX] trueRhs]|msg] tr1];
    [|discriminate].
  cbn. destruct (System.RecoverFEMSolution ops _ _ _ _) as [[dX|msg] tr2];
    try discriminate; intros H; injection H as <- <- <-; cbn; auto.
Qed.

(** Every step of a sequence of [HCurlOperator] steps allocates a solver. *)
Lemma HCurlOperator_run_allocates {E} (ops : System.Ops E) (Mult : System.Mult_fn) dts :
  forall (s : HCurlOperator.t) X dX_dt tr s' dX_dt' tr',
    HCurlOperator.run ops Mult s dts X dX_dt tr = (Run.Return (s', dX_dt'), tr') ->
    HCurlOperator.next_id s' = (HCurlOperator.next_id s + length dts)%nat.
Proof.
  induction dts as [|dt rest IH]; intros s X dX_dt tr s' dX' tr' H.
  - cbn in H. injection H as <- <- <-. cbn. lia.
  - cbn [HCurlOperator.run] in H. unfold mbind, M_bind, Run.bind in H.
    destruct (HCurlOperator.ImplicitSolve ops Mult s dt X dX_dt tr)
      as [[[s1 dX1]|msg] tr1] eqn:H1; [|discriminate].
    apply HCurlOperator_ImplicitSolve_inv in H1 as (_ & Hid & _).
    apply IH in H. rewrite H, Hid. cbn. lia.
Qed.

(** ** Sample operators *)

(** ** When a solver is constructed *)

(** C1 (as amended). [AVSolver::ImplicitSolve] constructs a solver or a
    preconditioner only when its pointer is null and keeps the object it
    holds in every other invocation, whatever the time step; along a
    sequence of steps nothing is constructed once the four pointers are
    set.  The time-step test [|dt - dt_A1| > 1e-12 * dt] decides, with the
    absence of [a1], the rebuilding of the bilinear form [a1], not of the
    solver.  [HCurlSolver::ImplicitSolve] constructs its solver only when
    the pointer is null.  [HCurlOperator::ImplicitSolve] constructs a new
    solver in every invocation. *)
Theorem solver_construction_policy :
  (forall be s dt X dX_dt tr,
     exists s' X' dX_dt',
       AVSolver.ImplicitSolve be s dt X dX_dt tr
       = (Run.Return (s', X', dX_dt'), tr ++ AV_events s dt) /\
       (forall o, AVSolver.pcg_a1 s = Some o -> AVSolver.pcg_a1 s' = Some o) /\
       (forall o, AVSolver.pcg_a0 s = Some o -> AVSolver.pcg_a0 s' = Some o) /\
       (forall o, AVSolver.ams_a1 s = Some o -> AVSolver.ams_a1 s' = Some o) /\
       (forall o, AVSolver.amg_a0 s = Some o -> AVSolver.amg_a0 s' = Some o) /\
       (AVSolver.pcg_a1 s = None ->
        exists id, AVSolver.pcg_a1 s'
                   = Some (AVSolver.new_pcg id 1.0e-16%float (AVSolver.ams_a1 s')) /\
                   In (Run.New "HyprePCG" id) (AV_events s dt)) /\
       (In (Run.Call "buildA1") (AV_events s dt) <->
        AVSolver.a1 s = None \/ AVSolver.dt_moved dt (AVSolver.dt_A1 s) = true)) /\
  (forall be dts s X dX_dt tr,
     is_Some (AVSolver.amg_a0 s) -> is_Some (AVSolver.pcg_a0 s) ->
     is_Some (AVSolver.ams_a1 s) -> is_Some (AVSolver.pcg_a1 s) ->
     exists s' X' dX_dt' tr',
       AVSolver.run be s dts X dX_dt tr = (Run.Return (s', X', dX_dt'), tr') /\
       AVSolver.pcg_a1 s' = AVSolver.pcg_a1 s /\
       AVSolver.pcg_a0 s' = AVSolver.pcg_a0 s /\
       AVSolver.next_id s' = AVSolver.next_id s) /\
  (forall W (ops : System.Ops W) Mult (s : HCurlSolver.t) dt X dX_dt tr s' dX_dt' tr',
     HCurlSolver.ImplicitSolve ops Mult s dt X dX_dt tr
     = (Run.Return (s', dX_dt'), tr') ->
     (forall o, HCurlSolver.a1_solver s = Some o ->
        HCurlSolver.a1_solver s' = Some o /\
        HCurlSolver.next_id s' = HCurlSolver.next_id s) /\
     (HCurlSolver.a1_solver s = None ->
        HCurlSolver.a1_solver s'
        = Some (System.new_DefaultHCurlPCGSolver (HCurlSolver.solver_options s)
                  (HCurlSolver.next_id s)) /\
        HCurlSolver.next_id s' = S (HCurlSolver.next_id s))) /\
  (forall E (ops : System.Ops E) Mult (s : HCurlOperator.t) dt X dX_dt tr s' dX_dt' tr',
     HCurlOperator.ImplicitSolve ops Mult s dt X dX_dt tr
     = (Run.Return (s', dX_dt'), tr') ->
     HCurlOperator.a1_solver s'
     = Some (System.new_DefaultHCurlPCGSolver (HCurlOperator.solver_options s)
               (HCurlOperator.next_id s)) /\
     HCurlOperator.next_id s' = S (HCurlOperator.next_id s)) /\
  (forall E (ops : System.Ops E) Mult dts (s : HCurlOperator.t) X dX_dt tr s' dX_dt' tr',
     HCurlOperator.run ops Mult s dts X dX_dt tr = (Run.Return (s', dX_dt'), tr') ->
     HCurlOperator.next_id s' = (HCurlOperator.next_id s + length dts)%nat).
Proof.
  split_and!.
  - intros be s dt X dX_dt tr.
    destruct (AVSolver_ImplicitSolve_inv be s dt X dX_dt tr)
      as (s' & X' & dX' & Hrun & Hamg & Hpcg0 & Hams & Hpcg1 & _).
    exists s', X', dX'. split_and!.
    + exact Hrun.
    + intros o Ho. rewrite Hpcg1, Ho. reflexivity.
    + intros o Ho. rewrite Hpcg0, Ho. reflexivity.
    + intros o Ho. rewrite Hams, Ho. reflexivity.
    + intros o Ho. rewrite Hamg, Ho. reflexivity.
    + intros Hnone. rewrite Hpcg1, Hams, Hnone. cbn. eexists. split; [reflexivity|].
      unfold AV_events. rewrite Hnone. cbn.
      rewrite ?in_app_iff; cbn; rewrite ?in_app_iff; cbn; auto 20.
    + rewrite buildA1_in_events. apply must_build_A1_iff.
  - intros be dts s X dX_dt tr Hamg Hpcg0 Hams Hpcg1.
    destruct (AVSolver_run_keeps_solvers be dts s X dX_dt tr Hamg Hpcg0 Hams Hpcg1)
      as (s' & X' & dX' & tr' & Hrun & _ & H2 & _ & H4 & H5).
    exists s', X', dX', tr'. auto.
  - intros W ops Mult s dt X dX_dt tr s' dX' tr' H.
    apply HCurlSolver_ImplicitSolve_inv in H as [Hsolver Hid].
    split.
    + intros o Ho. rewrite Hsolver, Hid, Ho. auto.
    + intros Hnone. rewrite Hsolver, Hid, Hnone. auto.
  - intros E ops Mult s dt X dX_dt tr s' dX' tr' H.
    apply HCurlOperator_ImplicitSolve_inv in H as (Hsolver & Hid & _). auto.
  - intros E ops Mult dts s X dX_dt tr s' dX' tr' H.
    now apply HCurlOperator_run_allocates in H.
Qed.

Lemma solver_construction_policy_witness :
  exists s1,
    av1 = Some s1 /\
    exists s' X' dX_dt' tr',
      AVSolver.run av_backend s1 [0.1%float; 0.2%float] X5 dX5 []
      = (Run.Return (s', X', dX_dt'), tr') /\
      AVSolver.pcg_a1 s' = AVSolver.pcg_a1 s1 /\
      AVSolver.pcg_a0 s' = AVSolver.pcg_a0 s1 /\
      AVSolver.next_id s' = AVSolver.next_id s1.
Proof.
  destruct av1 as [s1|] eqn:Hs; [|vm_compute in Hs; discriminate].
  exists s1. split; [reflexivity|].
  apply (proj1 (proj2 solver_construction_policy) av_backend
           [0.1%float; 0.2%float] s1 X5 dX5 []);
    vm_compute in Hs; injection Hs as <-; eexists; reflexivity.
Defined.

(** C1 as stated fails: [HCurlOperator::ImplicitSolve], called a second
    time with the same time step on the same system, finds a solver, forms
    the same block operator, sees no change of the time step, and still
    constructs a new solver. *)
Lemma HCurlOperator_constructs_solver_unprompted :
  exists s1 s2 dX_dt2 tr2,
    op1 1000 = Some s1 /\
    HCurlOperator.ImplicitSolve pu_ops (stalled_Mult 1000) s1 0.1%float X5 dX5 []
    = (Run.Return (s2, dX_dt2), tr2) /\
    is_Some (HCurlOperator.a1_solver s1) /\
    is_Some (HCurlOperator.blockA s1) /\
    HCurlOperator.blockA s2 = HCurlOperator.blockA s1 /\
    AVSolver.dt_moved 0.1%float 0.1%float = false /\
    solver_id <$> HCurlOperator.a1_solver s1 = Some 0%nat /\
    solver_id <$> HCurlOperator.a1_solver s2 = Some 1%nat /\
    HCurlOperator.a1_solver s2 <> HCurlOperator.a1_solver s1 /\
    In (Run.New "DefaultHCurlPCGSolver" 1%nat) tr2.
Proof.
  do 4 eexists.
  split; [vm_compute; reflexivity|].
  split; [vm_compute; reflexivity|].
  split; [eexists; reflexivity|].
  split; [eexists; reflexivity|].
  split; [vm_compute; reflexivity|].
  split; [vm_compute; reflexivity|].
  split; [reflexivity|].
  split; [reflexivity|].
  split; [cbn; discriminate|].
  cbn. auto 10.
Qed.

(** ** What becomes of a solve that did not converge *)

(** A step of [AVSolver] returns, and what it returns is what
    [RecoverFEMSolution] made of the iterates its two solves left. *)
Lemma AVSolver_ImplicitSolve_iterates be s dt X dX_dt tr :
  exists s' X' dX_dt',
    AVSolver.ImplicitSolve be s dt X dX_dt tr
    = (Run.Return (s', X', dX_dt'), tr ++ AV_events s dt) /\
    AV_iterates be s X dX_dt s' X' dX_dt'.
Proof.
  unfold AVSolver.ImplicitSolve, AV_events, AVSolver.ensure, AV_iterates.
  destruct (AVSolver.applyEssentialBCs be AVSolver.p_name _ _) as [ess0 Phi] eqn:Hbc0.
  destruct (AVSolver.FormLinearSystem be (AVSolver.a0 s) _ _ _) as [X0 B0] eqn:Hsys0.
  destruct (AVSolver.applyEssentialBCs be AVSolver.u_name _ _) as [ess1 Jgf] eqn:Hbc1.
  unfold AVSolver.must_build_A1.
  destruct (AVSolver.amg_a0 s) as [amg|], (AVSolver.pcg_a0 s) as [pcg0|],
           (AVSolver.ams_a1 s) as [ams|], (AVSolver.pcg_a1 s) as [pcg1|],
           (AVSolver.a1 s) as [a1|];
    try destruct (AVSolver.dt_moved dt (AVSolver.dt_A1 s));
    unfold mbind, M_bind, Run.bind, mret, M_ret, Run.ret, Run.call, Run.emit;
    cbn;
    match goal with
    | |- context [AVSolver.FormLinearSystem be ?a ?e ?x ?b] =>
        destruct (AVSolver.FormLinearSystem be a e x b) as [X1 B1] eqn:Hsys1
    end;
    cbn; rewrite <- ?app_assoc; cbn;
    do 3 eexists; (split; [reflexivity|]); cbn;
    do 12 eexists; split_and!; try reflexivity; try eassumption.
Qed.

(** When the three calls into its weak form return, a step of [HCurlSolver]
    returns what [RecoverFEMSolution] made of the iterate [Mult] left. *)
Lemma HCurlSolver_ImplicitSolve_returns {W} (ops : System.Ops W) (Mult : System.Mult_fn)
    (s : HCurlSolver.t) dt X dX_dt tr wf0 tr0 wf A1 X1 B1 tr1 dX_dt' tr2 :
  let solver := held (HCurlSolver.a1_solver s)
                  (System.new_DefaultHCurlPCGSolver (HCurlSolver.solver_options s)
                     (HCurlSolver.next_id s)) in
  System.update ops (HCurlSolver.time s)
    (System.setTimeStep ops dt (HCurlSolver.weak_form s)) (tr ++ [Run.Call "SetTime"])
  = (Run.Return wf0, tr0) ->
  System.FormLinearSystem ops (HCurlSolver.time s) wf0 tr0
  = (Run.Return (wf, A1, X1, B1), tr1) ->
  System.RecoverFEMSolution ops wf (mr_x (Mult solver A1 B1 X1))
    (Vector_assign 0%float dX_dt)
    (tr1 ++ allocation (HCurlSolver.a1_solver s) "DefaultHCurlPCGSolver"
              (HCurlSolver.next_id s)
         ++ [Run.Call "DefaultHCurlPCGSolver::Mult"])
  = (Run.Return dX_dt', tr2) ->
  exists s',
    HCurlSolver.ImplicitSolve ops Mult s dt X dX_dt tr
    = (Run.Return (s', dX_dt'), tr2 ++ [Run.Call "curl"]) /\
    HCurlSolver.weak_form s' = wf /\
    HCurlSolver.a1_solver s' = Some solver.
Proof.
  intros solver Hup Hform Hrec. subst solver.
  unfold HCurlSolver.ImplicitSolve.
  unfold mbind, M_bind, Run.bind, mret, M_ret, Run.ret, Run.call, Run.emit. cbn.
  rewrite Hup, Hform.
  destruct (HCurlSolver.a1_solver s) as [o|]; cbn in Hrec |- *.
  - rewrite Hrec. eexists. split_and!; reflexivity.
  - rewrite <- app_assoc. cbn.
    rewrite Hrec. eexists. split_and!; reflexivity.
Qed.

(** The same for [HCurlOperator], whose solver is always the new one. *)
Lemma HCurlOperator_ImplicitSolve_returns {E} (ops : System.Ops E) (Mult : System.Mult_fn)
    (s : HCurlOperator.t) dt X dX_dt tr es0 tr0 es A trueX trueRhs tr1 dX_dt' tr2 :
  let solver := System.new_DefaultHCurlPCGSolver (HCurlOperator.solver_options s)
                  (HCurlOperator.next_id s) in
  System.update ops (HCurlOperator.time s)
    (System.setTimeStep ops dt (HCurlOperator.equation_system s))
    (tr ++ [Run.Call "SetTime"])
  = (Run.Return es0, tr0) ->
  System.FormLinearSystem ops (HCurlOperator.time s) es0 tr0
  = (Run.Return (es, A, trueX, trueRhs), tr1) ->
  System.RecoverFEMSolution ops es (mr_x (Mult solver A trueRhs trueX)) dX_dt
    (tr1 ++ [Run.New "DefaultHCurlPCGSolver" (HCurlOperator.next_id s);
             Run.Call "DefaultHCurlPCGSolver::Mult"])
  = (Run.Return dX_dt', tr2) ->
  exists s',
    HCurlOperator.ImplicitSolve ops Mult s dt X dX_dt tr
    = (Run.Return (s', dX_dt'), tr2) /\
    HCurlOperator.equation_system s' = es /\
    HCurlOperator.a1_solver s' = Some solver.
Proof.
  intros solver Hup Hform Hrec. subst solver.
  unfold HCurlOperator.ImplicitSolve.
  unfold mbind, M_bind, Run.bind, mret, M_ret, Run.ret, Run.call, Run.emit. cbn.
  rewrite Hup, Hform. cbn. rewrite <- app_assoc. cbn.
  rewrite Hrec. eexists. split_and!; reflexivity.
Qed.

(** On the equation system of the specification the step of [HCurlOperator]
    returns whenever the assembly and [FormLinearSystem] do, and its trace
    is the three calls of the operator. *)
Lemma HCurlOperator_ImplicitSolve_on_equation_system
    (bc : EquationSystem.BoundaryConditions)
    (eliminate_rhs : HypreParMatrix -> Vector -> Vector -> Vector)
    (Mult : System.Mult_fn) (s : HCurlOperator.t) dt X dX_dt tr
    es sources gfs es1 sources1 gfs1 es2 A x rhs tr1 :
  let solver := System.new_DefaultHCurlPCGSolver (HCurlOperator.solver_options s)
                  (HCurlOperator.next_id s) in
  HCurlOperator.equation_system s = (es, sources, gfs) ->
  EquationSystem.UpdateSystem bc (HCurlOperator.time s)
    (EquationSystem.SetTimeStep dt es) sources gfs
  = Some (es1, sources1, gfs1) ->
  EquationSystem.FormLinearSystem bc (HCurlOperator.time s) eliminate_rhs es1
    (tr ++ [Run.Call "SetTime"])
  = (Run.Return (es2, A, x, rhs), tr1) ->
  exists s' el,
    EquationSystem.eliminated es2 = Some el /\
    HCurlOperator.ImplicitSolve (EquationSystem.ops bc eliminate_rhs) Mult s dt X dX_dt tr
    = (Run.Return
         (s', EquationSystem.scatter (EquationSystem.block_offsets es2)
                (EquationSystem.recover_blocks el (mr_x (Mult solver A rhs x)))
                dX_dt),
       tr ++ [Run.Call "SetTime";
              Run.New "DefaultHCurlPCGSolver" (HCurlOperator.next_id s);
              Run.Call "DefaultHCurlPCGSolver::Mult"]) /\
    HCurlOperator.equation_system s' = (es2, sources1, gfs1) /\
    HCurlOperator.a1_solver s' = Some solver.
Proof.
  intros solver Hsys Hup Hform.
  assert (Htr : tr1 = tr ++ [Run.Call "SetTime"] /\
                exists el, EquationSystem.eliminated es2 = Some el).
  { unfold EquationSystem.FormLinearSystem in Hform.
    destruct (mapM _ _) as [el|]; [|discriminate].
    cbn in Hform. injection Hform as <- <- <- <- <-. split; [reflexivity|].
    eexists. reflexivity. }
  destruct Htr as [-> [el Hel]].
  edestruct (HCurlOperator_ImplicitSolve_returns (EquationSystem.ops bc eliminate_rhs)
               Mult s dt X dX_dt tr) as (s' & Hrun & Hes & Hsolver).
  - cbn [System.update System.setTimeStep EquationSystem.ops].
    rewrite Hsys. rewrite Hup. reflexivity.
  - cbn [System.FormLinearSystem EquationSystem.ops].
    unfold mbind, M_bind, Run.bind. rewrite Hform. reflexivity.
  - cbn [System.RecoverFEMSolution EquationSystem.ops].
    unfold mbind, M_bind, Run.bind, EquationSystem.RecoverSolution.
    rewrite Hel. reflexivity.
  - exists s', el. split; [exact Hel|]. split; [|split; assumption].
    rewrite Hrun. rewrite <- app_assoc. reflexivity.
Qed.

(** C3 (as amended). [ImplicitSolve] does not read what the solver reports:
    of the result of [Mult] it takes the iterate alone and passes it, as it
    is, to [RecoverFEMSolution], whose result it writes to [dX_dt] (and, for
    the potential of [AVSolver], to [X]); it returns normally and its own
    events are calls and allocations, nothing printed.  [AVSolver] always
    returns; [HCurlSolver] and [HCurlOperator] return whenever the update,
    [FormLinearSystem] and [RecoverFEMSolution] of their system do, and on
    the equation system of the specification [HCurlOperator] returns
    whenever the assembly and [FormLinearSystem] do.  Whether the solve
    converged, the iteration count and the residual norm stay inside the
    solver object: two solves that leave the same iterate give the same
    step, whatever each reports. *)
Theorem convergence_status_not_read :
  (forall be status s dt X dX_dt tr,
     AVSolver.ImplicitSolve (AV_reporting status be) s dt X dX_dt tr
     = AVSolver.ImplicitSolve be s dt X dX_dt tr /\
     Forall (fun e => Run.is_work e = true) (AV_events s dt) /\
     exists s' X' dX_dt',
       AVSolver.ImplicitSolve be s dt X dX_dt tr
       = (Run.Return (s', X', dX_dt'), tr ++ AV_events s dt) /\
       AV_iterates be s X dX_dt s' X' dX_dt') /\
  (forall W (ops : System.Ops W) Mult status (s : HCurlSolver.t) dt X dX_dt tr,
     HCurlSolver.ImplicitSolve ops (reporting status Mult) s dt X dX_dt tr
     = HCurlSolver.ImplicitSolve ops Mult s dt X dX_dt tr /\
     forall wf0 tr0 wf A1 X1 B1 tr1 dX_dt' tr2,
       let solver := held (HCurlSolver.a1_solver s)
                       (System.new_DefaultHCurlPCGSolver (HCurlSolver.solver_options s)
                          (HCurlSolver.next_id s)) in
       System.update ops (HCurlSolver.time s)
         (System.setTimeStep ops dt (HCurlSolver.weak_form s))
         (tr ++ [Run.Call "SetTime"])
       = (Run.Return wf0, tr0) ->
       System.FormLinearSystem ops (HCurlSolver.time s) wf0 tr0
       = (Run.Return (wf, A1, X1, B1), tr1) ->
       System.RecoverFEMSolution ops wf (mr_x (Mult solver A1 B1 X1))
         (Vector_assign 0%float dX_dt)
         (tr1 ++ allocation (HCurlSolver.a1_solver s) "DefaultHCurlPCGSolver"
                   (HCurlSolver.next_id s)
              ++ [Run.Call "DefaultHCurlPCGSolver::Mult"])
       = (Run.Return dX_dt', tr2) ->
       exists s',
         HCurlSolver.ImplicitSolve ops Mult s dt X dX_dt tr
         = (Run.Return (s', dX_dt'), tr2 ++ [Run.Call "curl"]) /\
         HCurlSolver.weak_form s' = wf /\
         HCurlSolver.a1_solver s' = Some solver) /\
  (forall E (ops : System.Ops E) Mult status (s : HCurlOperator.t) dt X dX_dt tr,
     HCurlOperator.ImplicitSolve ops (reporting status Mult) s dt X dX_dt tr
     = HCurlOperator.ImplicitSolve ops Mult s dt X dX_dt tr /\
     forall es0 tr0 es A trueX trueRhs tr1 dX_dt' tr2,
       let solver := System.new_DefaultHCurlPCGSolver (HCurlOperator.solver_options s)
                       (HCurlOperator.next_id s) in
       System.update ops (HCurlOperator.time s)
         (System.setTimeStep ops dt (HCurlOperator.equation_system s))
         (tr ++ [Run.Call "SetTime"])
       = (Run.Return es0, tr0) ->
       System.FormLinearSystem ops (HCurlOperator.time s) es0 tr0
       = (Run.Return (es, A, trueX, trueRhs), tr1) ->
       System.RecoverFEMSolution ops es (mr_x (Mult solver A trueRhs trueX)) dX_dt
         (tr1 ++ [Run.New "DefaultHCurlPCGSolver" (HCurlOperator.next_id s);
                  Run.Call "DefaultHCurlPCGSolver::Mult"])
       = (Run.Return dX_dt', tr2) ->
       exists s',
         HCurlOperator.ImplicitSolve ops Mult s dt X dX_dt tr
         = (Run.Return (s', dX_dt'), tr2) /\
         HCurlOperator.equation_system s' = es /\
         HCurlOperator.a1_solver s' = Some solver) /\
  (forall bc eliminate_rhs Mult (s : HCurlOperator.t) dt X dX_dt tr
          es sources gfs es1 sources1 gfs1 es2 A x rhs tr1,
     let solver := System.new_DefaultHCurlPCGSolver (HCurlOperator.solver_options s)
                     (HCurlOperator.next_id s) in
     HCurlOperator.equation_system s = (es, sources, gfs) ->
     EquationSystem.UpdateSystem bc (HCurlOperator.time s)
       (EquationSystem.SetTimeStep dt es) sources gfs
     = Some (es1, sources1, gfs1) ->
     EquationSystem.FormLinearSystem bc (HCurlOperator.time s) eliminate_rhs es1
       (tr ++ [Run.Call "SetTime"])
     = (Run.Return (es2, A, x, rhs), tr1) ->
     exists s' el,
       EquationSystem.eliminated es2 = Some el /\
       HCurlOperator.ImplicitSolve (EquationSystem.ops bc eliminate_rhs) Mult
         s dt X dX_dt tr
       = (Run.Return
            (s', EquationSystem.scatter (EquationSystem.block_offsets es2)
                   (EquationSystem.recover_blocks el (mr_x (Mult solver A rhs x)))
                   dX_dt),
          tr ++ [Run.Call "SetTime";
                 Run.New "DefaultHCurlPCGSolver" (HCurlOperator.next_id s);
                 Run.Call "DefaultHCurlPCGSolver::Mult"]) /\
       HCurlOperator.equation_system s' = (es2, sources1, gfs1) /\
       HCurlOperator.a1_solver s' = Some solver).
Proof.
  split_and!.
  - intros be status s dt X dX_dt tr. split_and!.
    + reflexivity.
    + unfold AV_events, allocation.
      destruct (AVSolver.amg_a0 s), (AVSolver.pcg_a0 s), (AVSolver.ams_a1 s),
               (AVSolver.pcg_a1 s), (AVSolver.must_build_A1 s dt);
        repeat constructor.
    + apply AVSolver_ImplicitSolve_iterates.
  - intros W ops Mult status s dt X dX_dt tr. split; [reflexivity|].
    intros wf0 tr0 wf A1 X1 B1 tr1 dX_dt' tr2.
    apply HCurlSolver_ImplicitSolve_returns.
  - intros E ops Mult status s dt X dX_dt tr. split; [reflexivity|].
    intros es0 tr0 es A trueX trueRhs tr1 dX_dt' tr2.
    apply HCurlOperator_ImplicitSolve_returns.
  - intros bc eliminate_rhs Mult s dt X dX_dt tr
           es sources gfs es1 sources1 gfs1 es2 A x rhs tr1.
    apply HCurlOperator_ImplicitSolve_on_equation_system.
Qed.

(** The sample operator with a solver that stops on a budget of one
    iteration: the step returns, and its trace is the three calls. *)
Lemma convergence_status_not_read_witness :
  exists s' dX_dt',
    HCurlOperator.ImplicitSolve pu_ops (stalled_Mult 1) (op0 1) 0.1%float X5 dX5 []
    = (Run.Return (s', dX_dt'),
       [Run.Call "SetTime"; Run.New "DefaultHCurlPCGSolver" 0%nat;
        Run.Call "DefaultHCurlPCGSolver::Mult"]) /\
    HCurlOperator.a1_solver s'
    = Some (System.new_DefaultHCurlPCGSolver (hcurl_options 1) 0%nat).
Proof.
  edestruct (proj2 (proj2 (proj2 convergence_status_not_read))
               bc_pu keep_rhs (stalled_Mult 1) (op0 1) 0.1%float X5 dX5 [])
    as (s' & el & Hel & Hrun & Hes & Hsolver).
  - reflexivity.
  - vm_compute. reflexivity.
  - vm_compute. reflexivity.
  - exists s'. eexists. split; [exact Hrun | exact Hsolver].
Defined.

(** C3 as stated fails: the solve of [AVSolver] stops on its budget of 1000
    iterations without converging, that of [HCurlOperator] on a budget of
    1; each step returns and nothing is printed. *)
Lemma ImplicitSolve_returns_on_nonconvergence :
  (mr_converged (AVSolver.PCG_Mult av_backend
                   (AVSolver.new_pcg 3%nat 1.0e-16%float None)
                   (eliminated_matrix (new_ParBilinearForm hcurl_3) []) dX5 dX5)
   = false /\
   Run.aborted (fst (AVSolver.ImplicitSolve av_backend av0 0.1%float X5 dX5 [])) = false /\
   Forall (fun e => Run.is_work e = true)
     (snd (AVSolver.ImplicitSolve av_backend av0 0.1%float X5 dX5 []))) /\
  (mr_converged (stalled_Mult 1
                   (System.new_DefaultHCurlPCGSolver (hcurl_options 1) 0%nat)
                   (eliminated_matrix (new_ParBilinearForm hcurl_3) []) dX5 dX5)
   = false /\
   Run.aborted (fst (HCurlOperator.ImplicitSolve pu_ops (stalled_Mult 1) (op0 1)
                       0.1%float X5 dX5 [])) = false /\
   Forall (fun e => Run.is_work e = true)
     (snd (HCurlOperator.ImplicitSolve pu_ops (stalled_Mult 1) (op0 1)
             0.1%float X5 dX5 []))).
Proof.
  split; (split; [reflexivity|]); split;
    try (vm_compute; reflexivity); vm_compute; repeat constructor.
Qed.

(** ** What a change of the time step rebuilds *)

(** C6 (as amended). A step whose time step differs from the one [a1] was
    built with by more than the relative tolerance,
    [|dt - dt_A1| > 1e-12 * dt], or that finds no [a1], rebuilds [a1] with
    the mass term and the curl-curl term scaled by the new time step, and
    records the time step in [dt_A1]; a step within the tolerance keeps
    [a1] and [dt_A1] as they are.  No step writes the mass form [m1], the
    curl-curl form [curlCurl] of the right-hand side, or [a0]. *)
Theorem time_step_rebuilds_a1_only (be : AVSolver.Backend) (s s' : AVSolver.t)
    (dt : double) (X dX_dt X' dX_dt' : Vector) (tr tr' : list Run.Event) :
  AVSolver.ImplicitSolve be s dt X dX_dt tr = (Run.Return (s', X', dX_dt'), tr') ->
  (AVSolver.a1 s = None \/ AVSolver.dt_moved dt (AVSolver.dt_A1 s) = true ->
   AVSolver.a1 s'
   = Some (AVSolver.buildA1 (AVSolver.HCurlFESpace_ s) (AVSolver.betaCoef s)
             (AVSolver.dtAlphaCoef s) dt (AVSolver.time s)) /\
   (bf_matrix <$> AVSolver.a1 s')
   = Some (Some [VectorFEMassTerm (evaluate dt (AVSolver.time s) (AVSolver.betaCoef s));
                 CurlCurlTerm (evaluate dt (AVSolver.time s) (AVSolver.dtAlphaCoef s))]) /\
   AVSolver.dt_A1 s' = dt /\
   In (Run.Call "buildA1") (AV_events s dt)) /\
  (forall a, AVSolver.a1 s = Some a ->
   AVSolver.dt_moved dt (AVSolver.dt_A1 s) = false ->
   AVSolver.a1 s' = Some a /\
   AVSolver.dt_A1 s' = AVSolver.dt_A1 s /\
   ~ In (Run.Call "buildA1") (AV_events s dt)) /\
  AVSolver.m1 s' = AVSolver.m1 s /\
  AVSolver.curlCurl s' = AVSolver.curlCurl s /\
  AVSolver.a0 s' = AVSolver.a0 s /\
  tr' = tr ++ AV_events s dt.
Proof.
  intros H.
  destruct (AVSolver_ImplicitSolve_inv be s dt X dX_dt tr)
    as (s1 & X1 & dX1 & Hrun & _ & _ & _ & _ & _ & Ha1 & HdtA1 & _ & Ha0 & Hm1 & Hcc).
  rewrite Hrun in H. injection H as <- <- <- <-.
  split_and!; try assumption; try reflexivity.
  - intros Hmoved. apply must_build_A1_iff in Hmoved.
    rewrite Ha1, HdtA1, Hmoved. split_and!; try reflexivity.
    now apply buildA1_in_events.
  - intros a Ha Hstill.
    assert (Hno : AVSolver.must_build_A1 s dt = false).
    { unfold AVSolver.must_build_A1. now rewrite Ha. }
    rewrite Ha1, HdtA1, Hno. split_and!; try assumption; try reflexivity.
    rewrite buildA1_in_events, Hno. discriminate.
Qed.

Lemma time_step_rebuilds_a1_only_witness :
  exists s1 s2 X' dX_dt' tr',
    av1 = Some s1 /\
    AVSolver.ImplicitSolve av_backend s1 0.2%float X5 dX5 []
    = (Run.Return (s2, X', dX_dt'), tr') /\
    AVSolver.dt_A1 s2 = 0.2%float /\
    AVSolver.m1 s2 = AVSolver.m1 s1 /\
    AVSolver.curlCurl s2 = AVSolver.curlCurl s1.
Proof.
  destruct av1 as [s1|] eqn:Hs; [|vm_compute in Hs; discriminate].
  destruct (AVSolver.ImplicitSolve av_backend s1 0.2%float X5 dX5 [])
    as [[[[s2 X'] dX']|msg] tr'] eqn:Hrun.
  - exists s1, s2, X', dX', tr'. split; [reflexivity|]. split; [exact Hrun|].
    destruct (time_step_rebuilds_a1_only av_backend s1 s2 0.2%float X5 dX5 X' dX' [] tr' Hrun)
      as (Hmoved & _ & Hm1 & Hcc & _).
    destruct Hmoved as (_ & _ & HdtA1 & _).
    { right. vm_compute in Hs. injection Hs as <-. reflexivity. }
    auto.
  - exfalso. vm_compute in Hs. injection Hs as <-. vm_compute in Hrun. discriminate.
Defined.

(** C6 as stated fails: after a step with time step 0.1, a step with the
    next double above 0.1 changes the time step and rebuilds nothing: [a1]
    is the form assembled with 0.1. *)
Lemma small_change_of_time_step_keeps_a1 :
  exists s1 s2 X' dX_dt' tr',
    av1 = Some s1 /\
    AVSolver.ImplicitSolve av_backend s1 0.10000000000000002%float X5 dX5 []
    = (Run.Return (s2, X', dX_dt'), tr') /\
    PrimFloat.eqb 0.10000000000000002%float 0.1%float = false /\
    AVSolver.dt_A1 s1 = 0.1%float /\
    AVSolver.dtCoef s2 = 0.10000000000000002%float /\
    AVSolver.a1 s2 = AVSolver.a1 s1 /\
    AVSolver.dt_A1 s2 = 0.1%float /\
    ~ In (Run.Call "buildA1") tr' /\
    (bf_matrix <$> AVSolver.a1 s2)
    = Some (Some [VectorFEMassTerm (MaterialValue "electrical_conductivity" 0%float);
                  CurlCurlTerm
                    (TransformedValue (ConstantValue 0.1%float)
                       (TransformedValue (ConstantValue 1%float)
                          (MaterialValue "magnetic_permeability" 0%float) fracFunc)
                       prodFunc)]).
Proof.
  do 5 eexists.
  split; [vm_compute; reflexivity|].
  split; [vm_compute; reflexivity|].
  split; [reflexivity|].
  split; [reflexivity|].
  split; [reflexivity|].
  split; [reflexivity|].
  split; [reflexivity|].
  split; [|reflexivity].
  cbn. intros H. repeat (destruct H as [H|H]; [discriminate H|]). exact H.
Qed.
